(** * redux-midi: reducer, middleware factory and store observation

    A shallow embedding of the JavaScript sources of redux-midi
    (the action/reducer module, [setup] with its two middleware, and
    [observeStore]) together with the properties of the specification
    that can be checked against them. *)

From Stdlib Require Import ZArith String List Bool Lia Permutation Sorted.
From stdpp Require Import base option list gmap strings.
Import ListNotations.

Set Warnings "-register-all".

Local Open Scope nat_scope.

(** ** JavaScript values

    Arrays and objects are heap allocated: each carries the address it was
    allocated at, and [===] on them compares addresses, never contents. *)

Definition addr := nat.

Inductive value : Type :=
| VUndefined
| VNull
| VBool (b : bool)
| VNum (n : Z)
| VStr (s : string)
| VArr (a : addr) (items : list value)
| VObj (a : addr) (fields : list (string * value)).

(** [x === y]. *)
Definition strict_eq (x y : value) : bool :=
  match x, y with
  | VUndefined, VUndefined => true
  | VNull, VNull => true
  | VBool a, VBool b => Bool.eqb a b
  | VNum a, VNum b => Z.eqb a b
  | VStr a, VStr b => String.eqb a b
  | VArr a _, VArr b _ => Nat.eqb a b
  | VObj a _, VObj b _ => Nat.eqb a b
  | _, _ => false
  end.

(** [x !== y]. *)
Definition strict_neq (x y : value) : bool := negb (strict_eq x y).

(** Look a key up in the own properties of an object literal. *)
Fixpoint field (name : string) (fields : list (string * value)) : value :=
  match fields with
  | [] => VUndefined
  | (k, v) :: rest => if String.eqb k name then v else field name rest
  end.

(** Thrown exceptions. *)
Inductive error :=
| TypeError (msg : string)
| Error (msg : string).

Inductive outcome (A : Type) : Type :=
| Ok (a : A)
| Throw (e : error).
Arguments Ok {A} a.
Arguments Throw {A} e.

Definition obind {A B} (o : outcome A) (f : A -> outcome B) : outcome B :=
  match o with
  | Ok a => f a
  | Throw e => Throw e
  end.

(** [v.name]: reading a property of [undefined] or [null] throws, reading
    one of a primitive or of an array (other than an index) gives
    [undefined]. *)
Definition prop (v : value) (name : string) : outcome value :=
  match v with
  | VUndefined => Throw (TypeError "Cannot read property of undefined")
  | VNull => Throw (TypeError "Cannot read property of null")
  | VObj _ fields => Ok (field name fields)
  | _ => Ok VUndefined
  end.

(** ** redux-duck *)

Record action := { type : string; payload : value }.

Module Duck.

(** Modelled from the spec: the action-type and reducer helpers of the
    redux-duck package, which the module imports ([createDuck] and the
    [defineType], [createAction], [createReducer] it returns).  An action
    kind is the string [app/name/TYPE]; an action creator wraps its argument
    as the payload; the reducer runs the case registered for the kind of the
    action, and "unknown action kinds pass state through unchanged". *)
Definition defineType (name app type : string) : string :=
  app +:+ "/" +:+ name +:+ "/" +:+ type.

Definition createAction (type : string) (payload : value) : action :=
  {| type := type; payload := payload |}.

Fixpoint find_case {S : Type} (type : string)
    (cases : list (string * (S -> action -> S))) : option (S -> action -> S) :=
  match cases with
  | [] => None
  | (k, f) :: rest => if String.eqb k type then Some f else find_case type rest
  end.

(** [state = defaultState] is a default parameter: it applies when the
    reducer is called with [undefined], here [None]. *)
Definition createReducer {S : Type} (cases : list (string * (S -> action -> S)))
    (defaultState : S) (state : option S) (a : action) : S :=
  let state := default defaultState state in
  match find_case (type a) cases with
  | Some f => f state a
  | None => state
  end.

End Duck.

(** ** Action kinds, action creators and the reducer *)

Definition RECEIVE_DEVICE_LIST : string := Duck.defineType "midi" "redux-midi" "RECEIVE_DEVICE_LIST".
Definition SET_LISTENING_DEVICES : string := Duck.defineType "midi" "redux-midi" "SET_LISTENING_DEVICES".
Definition RECEIVE_MIDI_MESSAGE : string := Duck.defineType "midi" "redux-midi" "RECEIVE_MIDI_MESSAGE".
Definition SEND_MIDI_MESSAGE : string := Duck.defineType "midi" "redux-midi" "SEND_MIDI_MESSAGE".

Definition receiveDeviceList : value -> action := Duck.createAction RECEIVE_DEVICE_LIST.
Definition setListeningDevices : value -> action := Duck.createAction SET_LISTENING_DEVICES.
Definition receiveMidiMessage : value -> action := Duck.createAction RECEIVE_MIDI_MESSAGE.
Definition sendMidiMessage : value -> action := Duck.createAction SEND_MIDI_MESSAGE.

(** The slice of the store owned by the reducer.  The two fields hold
    whatever the last payload was; the spread [...state] also copies any
    other key of the slice, which nothing in the package reads. *)
Record coreState := { devices : value; listeningDevices : value }.

(** The two array literals of [initialState] are allocated once, when the
    module is loaded, at addresses 0 and 1. *)
Definition initialState : coreState :=
  {| devices := VArr 0 []; listeningDevices := VArr 1 [] |}.

Definition first_free_addr : addr := 2.

Definition reducer : option coreState -> action -> coreState :=
  Duck.createReducer
    [ (RECEIVE_DEVICE_LIST, fun state action =>
         {| devices := payload action; listeningDevices := listeningDevices state |});
      (SET_LISTENING_DEVICES, fun state action =>
         {| devices := devices state; listeningDevices := payload action |}) ]
    initialState.

(** The store applying the reducer to a sequence of dispatched actions. *)
Definition reduce_all (state : coreState) (actions : list action) : coreState :=
  fold_left (fun st a => reducer (Some st) a) actions state.

(** The payload of the most recent action of a kind, [d] when there is none. *)
Definition last_payload (kind : string) (d : value) (actions : list action) : value :=
  fold_left (fun v a => if String.eqb (type a) kind then payload a else v) actions d.

(** ** The Web MIDI objects *)

(** The message callback the input middleware installs on an input port: a
    closure over the id [device] it was installed for. *)
Inductive listener := Listener (device : value).

Record MIDIPort := {
  port_id : string;
  port_manufacturer : value;
  port_name : value;
  port_type : value;
  port_version : value;
  port_state : value;
  port_connection : value;
  onmidimessage : option listener   (* [None] is [null] *)
}.

(** [MIDIInputMap] and [MIDIOutputMap]: keyed by port id, iterated in
    insertion order. *)
Definition portMap := list (string * MIDIPort).

Inductive statechangeCallback := CallSendDeviceList.

Record MIDIAccess := {
  inputs : portMap;
  outputs : portMap;
  onstatechange : option statechangeCallback
}.

(** [map.has(key)]: the keys are strings, so only a string can be found. *)
Definition map_has (m : portMap) (key : value) : bool :=
  match key with
  | VStr s => existsb (fun kp => String.eqb (fst kp) s) m
  | _ => false
  end.

(** [map.get(key)]. *)
Definition map_get (m : portMap) (key : value) : option MIDIPort :=
  match key with
  | VStr s => snd <$> find (fun kp => String.eqb (fst kp) s) m
  | _ => None
  end.

(** [map.values()]. *)
Definition map_values (m : portMap) : list MIDIPort := map snd m.

(** [map.get(key).onmidimessage = cb]: the port is mutated in place. *)
Fixpoint set_onmidimessage (s : string) (cb : option listener) (m : portMap) : portMap :=
  match m with
  | [] => []
  | (k, p) :: rest =>
      if String.eqb k s then
        (k, {| port_id := port_id p; port_manufacturer := port_manufacturer p;
               port_name := port_name p; port_type := port_type p;
               port_version := port_version p; port_state := port_state p;
               port_connection := port_connection p; onmidimessage := cb |}) :: rest
      else (k, p) :: set_onmidimessage s cb rest
  end.

(** ** Promises and the state owned by one [setup] call *)

(** The callbacks chained on the promise stored in [midiAccess]. *)
Inductive continuation :=
| Bootstrap                               (* inputMiddleware: [() => { ... }] *)
| SendDeviceList                          (* [Promise.resolve().then(sendDeviceList)] *)
| Send (timestamp data device : value).   (* outputMiddleware: [send] *)

Inductive settlement :=
| Pending
| Fulfilled
| Rejected (e : error).

(** One call of the underlying [requestMIDIAccess(midiOptions)], with the
    promise [requestMIDIAccess(midiOptions).then(...)] derived from it: its
    state and the callbacks waiting on it. *)
Record request := {
  options : value;
  status : settlement;
  waiters : list continuation
}.

(** What the variable [midiAccess] holds: [undefined], the promise of the
    request numbered [p], or the access object itself. *)
Inductive cell :=
| Unset
| InFlight (p : nat)
| Granted (m : MIDIAccess).

(** What [requestMIDIAccessOnce()] returns. *)
Inductive promise :=
| Stored (p : nat)     (* the stored promise itself *)
| Resolved.            (* [Promise.resolve(midiAccess)] of the access object *)

(** One [send(data, timestamp)] call, on the output port [to]. *)
Record sendCall := { to : MIDIPort; sent_data : value; sent_timestamp : value }.

Record world := {
  midiAccess : cell;
  requests : list request;
  jobs : list continuation;             (* queued promise reactions *)
  root : gmap string coreState;         (* what [getState()] returns *)
  sent : list sendCall;
  next_addr : addr
}.

Definition set_midiAccess (c : cell) (w : world) : world :=
  {| midiAccess := c; requests := requests w; jobs := jobs w; root := root w;
     sent := sent w; next_addr := next_addr w |}.
Definition set_requests (r : list request) (w : world) : world :=
  {| midiAccess := midiAccess w; requests := r; jobs := jobs w; root := root w;
     sent := sent w; next_addr := next_addr w |}.
Definition set_jobs (j : list continuation) (w : world) : world :=
  {| midiAccess := midiAccess w; requests := requests w; jobs := j; root := root w;
     sent := sent w; next_addr := next_addr w |}.
Definition set_root (r : gmap string coreState) (w : world) : world :=
  {| midiAccess := midiAccess w; requests := requests w; jobs := jobs w; root := r;
     sent := sent w; next_addr := next_addr w |}.
Definition set_sent (s : list sendCall) (w : world) : world :=
  {| midiAccess := midiAccess w; requests := requests w; jobs := jobs w; root := root w;
     sent := s; next_addr := next_addr w |}.
Definition set_next_addr (n : addr) (w : world) : world :=
  {| midiAccess := midiAccess w; requests := requests w; jobs := jobs w; root := root w;
     sent := sent w; next_addr := n |}.

(** Computations of the package: they read and change the world and may
    throw; what was changed before a throw stays changed. *)
Definition M (A : Type) : Type := world -> outcome A * world.

Definition ret {A} (a : A) : M A := fun w => (Ok a, w).
Definition bind {A B} (m : M A) (f : A -> M B) : M B := fun w =>
  match m w with
  | (Ok a, w') => f a w'
  | (Throw e, w') => (Throw e, w')
  end.

Notation "'do' x <- c ; k" := (bind c (fun x => k))
  (at level 10, x name, c at level 100, k at level 200).
Notation "'do' ' p <- c ; k" := (bind c (fun x => match x with p => k end))
  (at level 10, p pattern, c at level 100, k at level 200).
Notation "c ;;; k" := (bind c (fun _ => k))
  (at level 100, k at level 200, right associativity).

Definition throw {A} (e : error) : M A := fun w => (Throw e, w).
Definition lift {A} (o : outcome A) : M A := fun w => (o, w).
Definition gets {A} (f : world -> A) : M A := fun w => (Ok (f w), w).
Definition modify (f : world -> world) : M unit := fun w => (Ok tt, f w).

(** Allocation of an array or object literal. *)
Definition alloc : M addr := fun w => (Ok (next_addr w), set_next_addr (S (next_addr w)) w).

(** [xs.filter(f)] with a callback that may throw. *)
Fixpoint filterM (f : value -> M bool) (xs : list value) : M (list value) :=
  match xs with
  | [] => ret []
  | x :: rest => do b <- f x; do ys <- filterM f rest; ret (if b then x :: ys else ys)
  end.

(** [for (let x of xs) body]. *)
Fixpoint forEach (body : value -> M unit) (xs : list value) : M unit :=
  match xs with
  | [] => ret tt
  | x :: rest => body x;;; forEach body rest
  end.

(** [xs.map(f)] with a callback that may throw, outside the world. *)
Fixpoint mapO (f : value -> outcome value) (xs : list value) : outcome (list value) :=
  match xs with
  | [] => Ok []
  | x :: rest => obind (f x) (fun y => obind (mapO f rest) (fun ys => Ok (y :: ys)))
  end.

(** The elements of an array on which an array method is called; the
    method does not exist on other values. *)
Definition as_array (v : value) : outcome (list value) :=
  match v with
  | VArr _ items => Ok items
  | VUndefined => Throw (TypeError "Cannot read property of undefined")
  | VNull => Throw (TypeError "Cannot read property of null")
  | _ => Throw (TypeError "is not a function")
  end.

(** [new Set(v)]: the elements of an iterable, nothing for [undefined] and
    [null]. *)
Definition newSet (v : value) : outcome (list value) :=
  match v with
  | VArr _ items => Ok items
  | VUndefined | VNull => Ok []
  | VStr s => Ok (map (fun c => VStr (String c EmptyString)) (list_ascii_of_string s))
  | _ => Throw (TypeError "is not iterable")
  end.

(** [set.has(v)]. *)
Definition set_has (s : list value) (v : value) : bool := existsb (strict_eq v) s.

(** ** lodash.sortby and deep-equal *)

Module Lodash.

(** Modelled from the spec: the comparison of two sort keys by the
    lodash.sortby package, which the module imports: "ascending
    (lexicographic)" on strings, numeric on numbers.  [ascending x y] holds
    when [x] need not come after [y]; keys of other kinds are left in the
    order they have. *)
Definition ascending (x y : value) : bool :=
  match x, y with
  | VStr a, VStr b => String.leb a b
  | VNum a, VNum b => Z.leb a b
  | _, _ => true
  end.

(** The iteratee of a property name: the property, [undefined] where there
    is none to read. *)
Definition property (name : string) (v : value) : value :=
  match v with
  | VObj _ fields => field name fields
  | _ => VUndefined
  end.

Fixpoint insert (key : value -> value) (x : value) (sorted : list value) : list value :=
  match sorted with
  | [] => [x]
  | y :: rest =>
      if ascending (key x) (key y) then x :: y :: rest
      else y :: insert key x rest
  end.

(** Modelled from the spec: [sortBy(collection, name)] of lodash.sortby,
    "sort by id ascending": a stable sort on the named property. *)
Definition sortBy (collection : list value) (name : string) : list value :=
  fold_right (insert (property name)) [] collection.

End Lodash.

Module DeepEqual.

(** Modelled from the spec: [deepEqual(a, b)] of the deep-equal package,
    which the module imports, "compare by value": primitives by value,
    arrays element by element, objects property by property, the address
    of an array or object playing no part. *)
Fixpoint deepEqual (a b : value) : bool :=
  match a, b with
  | VUndefined, VUndefined => true
  | VNull, VNull => true
  | VBool x, VBool y => Bool.eqb x y
  | VNum x, VNum y => Z.eqb x y
  | VStr x, VStr y => String.eqb x y
  | VArr _ xs, VArr _ ys =>
      (fix items (xs ys : list value) : bool :=
         match xs, ys with
         | [], [] => true
         | x :: xs', y :: ys' => deepEqual x y && items xs' ys'
         | _, _ => false
         end) xs ys
  | VObj _ fs, VObj _ gs =>
      (fix props (fs gs : list (string * value)) : bool :=
         match fs, gs with
         | [], [] => true
         | (k, x) :: fs', (l, y) :: gs' => String.eqb k l && deepEqual x y && props fs' gs'
         | _, _ => false
         end) fs gs
  | _, _ => false
  end.

End DeepEqual.

(** The order a list sorted on [key] is in. *)
Definition ascending_by (key : value -> value) (x y : value) : Prop :=
  Lodash.ascending (key x) (key y) = true.

(** A value without its addresses: what two values have in common when
    they are equal by value. *)
Inductive shape : Type :=
| SUndefined
| SNull
| SBool (b : bool)
| SNum (n : Z)
| SStr (s : string)
| SArr (items : list shape)
| SObj (fields : list (string * shape)).

Fixpoint shape_of (v : value) : shape :=
  match v with
  | VUndefined => SUndefined
  | VNull => SNull
  | VBool b => SBool b
  | VNum n => SNum n
  | VStr s => SStr s
  | VArr _ items => SArr (map shape_of items)
  | VObj _ fields => SObj (map (fun kv => (fst kv, shape_of (snd kv))) fields)
  end.

(** ** [setup]: the two middleware *)

(** The parameter of [setup] once destructured, with its defaults. *)
Inductive requester :=
| DefaultRequestMIDIAccess
| GivenRequestMIDIAccess (f : value).

Record config := {
  cfg_midiOptions : value;
  cfg_stateKey : value;
  cfg_requestMIDIAccess : requester
}.

(** [function setup ({midiOptions, stateKey = 'midi', requestMIDIAccess =
    defaultRequestMIDIAccess})]: the argument is destructured as it is, with
    no default of its own, and a default value replaces a property that is
    [undefined].  [setup()] passes [undefined].  The result stands for the
    pair [{inputMiddleware, outputMiddleware}], two closures over these
    three bindings; the section below gives them for any [midiOptions] and
    [stateKey]. *)
Definition setup (arg : value) : outcome config :=
  obind (prop arg "midiOptions") (fun midiOptions =>
  obind (prop arg "stateKey") (fun stateKey =>
  obind (prop arg "requestMIDIAccess") (fun requestMIDIAccess =>
  Ok {| cfg_midiOptions := midiOptions;
        cfg_stateKey := match stateKey with VUndefined => VStr "midi" | k => k end;
        cfg_requestMIDIAccess :=
          match requestMIDIAccess with
          | VUndefined => DefaultRequestMIDIAccess
          | f => GivenRequestMIDIAccess f
          end |}))).

Section Middleware.

Variable midiOptions : value.
Variable stateKey : string.

(** The underlying [requestMIDIAccess(midiOptions)]: the call is recorded
    with a promise that the host settles later. *)
Definition requestMIDIAccess : M nat := fun w =>
  (Ok (length (requests w)),
   set_requests (requests w ++ [{| options := midiOptions; status := Pending; waiters := [] |}]) w).

(** [if (midiAccess) return Promise.resolve(midiAccess)]: a promise and an
    access object are both truthy, and [Promise.resolve] of a promise is
    that promise. *)
Definition requestMIDIAccessOnce : M promise :=
  do c <- gets midiAccess;
  match c with
  | Granted _ => ret Resolved
  | InFlight p => ret (Stored p)
  | Unset =>
      do p <- requestMIDIAccess;
      modify (set_midiAccess (InFlight p));;;
      ret (Stored p)
  end.

Definition add_waiter (k : continuation) (r : request) : request :=
  {| options := options r; status := status r; waiters := waiters r ++ [k] |}.

Definition enqueue (k : continuation) : M unit :=
  modify (fun w => set_jobs (jobs w ++ [k]) w).

(** [promise.then(k)], with no rejection handler: [k] waits while the
    promise is pending, is queued when it is fulfilled and never runs when
    it is rejected. *)
Definition then_ (pr : promise) (k : continuation) : M unit :=
  match pr with
  | Resolved => enqueue k
  | Stored p =>
      do rs <- gets requests;
      match rs !! p with
      | Some r =>
          match status r with
          | Pending => modify (set_requests (<[p := add_waiter k r]> rs))
          | Fulfilled => enqueue k
          | Rejected _ => ret tt
          end
      | None => ret tt
      end
  end.

(** [getState()[stateKey]], [None] when the store has no such key. *)
Definition getSlice : M (option coreState) := gets (fun w => root w !! stateKey).

(** [state.devices], [state.listeningDevices] on a slice that may be
    [undefined]. *)
Definition member (f : coreState -> value) (state : option coreState) : M value :=
  match state with
  | Some s => ret (f s)
  | None => throw (TypeError "Cannot read property of undefined")
  end.

(** [midiAccess.inputs], [midiAccess.outputs]: a promise has neither. *)
Definition access_map (f : MIDIAccess -> portMap) : M (option portMap) :=
  do c <- gets midiAccess;
  match c with
  | Granted m => ret (Some (f m))
  | InFlight _ => ret None
  | Unset => throw (TypeError "Cannot read property of undefined")
  end.

(** [midiAccess.inputs.has(device)]. *)
Definition inputs_has (device : value) : M bool :=
  do ins <- access_map inputs;
  match ins with
  | Some m => ret (map_has m device)
  | None => throw (TypeError "Cannot read property 'has' of undefined")
  end.

(** [midiAccess.inputs.get(device).onmidimessage = cb]. *)
Definition assign_onmidimessage (device : value) (cb : option listener) : M unit :=
  do c <- gets midiAccess;
  match c with
  | Granted m =>
      match device, map_get (inputs m) device with
      | VStr s, Some _ =>
          modify (set_midiAccess (Granted
            {| inputs := set_onmidimessage s cb (inputs m); outputs := outputs m;
               onstatechange := onstatechange m |}))
      | _, _ => throw (TypeError "Cannot set property 'onmidimessage' of undefined")
      end
  | InFlight _ => throw (TypeError "Cannot read property 'get' of undefined")
  | Unset => throw (TypeError "Cannot read property 'inputs' of undefined")
  end.

(** The ids of a device list: [devices.map(device => device.id)]. *)
Definition device_ids (devs : value) : outcome (list value) :=
  obind (as_array devs) (mapO (fun device => prop device "id")).

(** [xs.filter(f)] with a callback that cannot throw. *)
Definition array_filter (f : value -> bool) (xs : value) : outcome (list value) :=
  obind (as_array xs) (fun items => Ok (List.filter f items)).

(** The first half of the per-action handler, after the action was
    forwarded: the ids to listen to and to stop listening to. *)
Definition diff (prevState : coreState) (state : option coreState)
    : M (list value * list value) :=
  do stateListening <- member listeningDevices state;
  do '(toListen, toUnlisten) <-
    (if strict_neq stateListening (listeningDevices prevState) then
       do prev <- lift (newSet (listeningDevices prevState));
       do next <- lift (newSet stateListening);
       do gone <- lift (array_filter (fun dev => negb (set_has next dev))
                          (listeningDevices prevState));
       do added <- lift (array_filter (fun dev => negb (set_has prev dev)) stateListening);
       ret (added, gone)
     else ret ([], []));
  do stateDevices <- member devices state;
  do back <-
    (if strict_neq stateDevices (devices prevState) then
       do prev <- lift (device_ids (devices prevState));
       do next <- lift (device_ids stateDevices);
       do items <- lift (as_array stateListening);
       filterM (fun device =>
                  do known <- inputs_has device;
                  ret (known && set_has next device && negb (set_has prev device)))
               items
     else ret []);
  ret (toListen ++ back, toUnlisten).

Definition unlisten (device : value) : M unit :=
  do known <- inputs_has device;
  if known then assign_onmidimessage device None else ret tt.

Definition listen (device : value) : M unit :=
  do known <- inputs_has device;
  if known then assign_onmidimessage device (Some (Listener device)) else ret tt.

(** The function [action => { ... }] returned by [inputMiddleware] for a
    given [next]. *)
Definition inputHandler (next : action -> M action) : action -> M action := fun action =>
  do prevState <- gets (fun w => default initialState (root w !! stateKey));
  do action <- next action;
  do state <- getSlice;
  do '(toListen, toUnlisten) <- diff prevState state;
  forEach unlisten toUnlisten;;;
  forEach listen toListen;;;
  ret action.

(** [inputMiddleware({dispatch, getState})(next)]: the request is made and
    the bootstrap chained on it before the handler is returned. *)
Definition inputMiddleware : M unit :=
  do p <- requestMIDIAccessOnce;
  then_ p Bootstrap.

(** The closure [send] of the output middleware. *)
Definition send (timestamp data device : value) : M unit :=
  do outs <- access_map outputs;
  match outs with
  | None => throw (TypeError "Cannot read property 'has' of undefined")
  | Some outs =>
      if map_has outs device then
        match map_get outs device with
        | Some port =>
            modify (fun w => set_sent
              (sent w ++ [{| to := port; sent_data := data;
                             sent_timestamp := timestamp |}]) w)
        | None => throw (TypeError "Cannot read property 'send' of undefined")
        end
      else ret tt
  end.

(** [outputMiddleware()(next)]. *)
Definition outputHandler (next : action -> M action) : action -> M action := fun action =>
  do action <- next action;
  (if String.eqb (type action) SEND_MIDI_MESSAGE then
     do timestamp <- lift (prop (payload action) "timestamp");
     do data <- lift (prop (payload action) "data");
     do device <- lift (prop (payload action) "device");
     do c <- gets midiAccess;
     match c with
     | Granted _ => send timestamp data device
     | _ => do p <- requestMIDIAccessOnce; then_ p (Send timestamp data device)
     end
   else ret tt);;;
  ret action.

(** The descriptor object built for one port. *)
Definition descriptor (a : addr) (device : MIDIPort) : value :=
  VObj a [ ("id", VStr (port_id device));
           ("manufacturer", port_manufacturer device);
           ("name", port_name device);
           ("type", port_type device);
           ("version", port_version device);
           ("state", port_state device);
           ("connection", port_connection device) ].

(** The objects of [[...inputs.values(), ...outputs.values()].map(...)],
    allocated one after the other from address [base]. *)
Definition descriptors (base : addr) (m : MIDIAccess) : list value :=
  imap (fun i device => descriptor (base + i) device)
       (map_values (inputs m) ++ map_values (outputs m)).

Section Callbacks.

(** The [dispatch] of the store the input middleware was given. *)
Variable dispatch : action -> M action.

Definition sendDeviceList : M unit :=
  do c <- gets midiAccess;
  match c with
  | Granted m =>
      do base <- gets next_addr;
      let objects := descriptors base m in
      let devices' := VArr (base + length objects) (Lodash.sortBy objects "id") in
      modify (set_next_addr (S (base + length objects)));;;
      do state <- getSlice;
      do current <- member devices state;
      if negb (DeepEqual.deepEqual devices' current) then
        dispatch (receiveDeviceList devices');;; ret tt
      else ret tt
  | InFlight _ => throw (TypeError "Cannot read property 'values' of undefined")
  | Unset => throw (TypeError "Cannot read property 'inputs' of undefined")
  end.

(** The callback [({receivedTime, timeStamp, timestamp, data}) => ...]
    installed for [device], called with a message event. *)
Definition call_listener (l : listener) (event : value) : M unit :=
  let 'Listener device := l in
  do receivedTime <- lift (prop event "receivedTime");
  do timeStamp <- lift (prop event "timeStamp");
  do timestamp <- lift (prop event "timestamp");
  do data <- lift (prop event "data");
  let timestamp :=
    hd VUndefined (List.filter (fun x => strict_neq x VUndefined)
                          [receivedTime; timeStamp; timestamp]) in
  do a <- alloc;
  dispatch (receiveMidiMessage
    (VObj a [("timestamp", timestamp); ("data", data); ("device", device)]));;;
  ret tt.

(** Running a callback that was chained on the stored promise. *)
Definition run_continuation (k : continuation) : M unit :=
  match k with
  | Bootstrap =>
      do c <- gets midiAccess;
      match c with
      | Granted m =>
          modify (set_midiAccess (Granted
            {| inputs := inputs m; outputs := outputs m;
               onstatechange := Some CallSendDeviceList |}));;;
          enqueue SendDeviceList
      | InFlight _ => enqueue SendDeviceList
      | Unset => throw (TypeError "Cannot set property 'onstatechange' of undefined")
      end
  | SendDeviceList => sendDeviceList
  | Send timestamp data device => send timestamp data device
  end.

(** *** What the host does *)

(** The host runs the next queued reaction; what it throws is lost. *)
Definition run_job (w : world) : world :=
  match jobs w with
  | [] => w
  | k :: rest => snd (run_continuation k (set_jobs rest w))
  end.

(** The host reports a change of the access object in use, and calls
    what [onstatechange] holds. *)
Definition statechange : M unit :=
  do c <- gets midiAccess;
  match c with
  | Granted m =>
      match onstatechange m with
      | Some CallSendDeviceList => sendDeviceList
      | None => ret tt
      end
  | _ => ret tt
  end.

(** A port of the access object in use receives a message. *)
Definition midimessage (port : string) (event : value) : M unit :=
  do ins <- access_map inputs;
  match ins with
  | Some m =>
      match map_get m (VStr port) with
      | Some p =>
          match onmidimessage p with
          | Some l => call_listener l event
          | None => ret tt
          end
      | None => ret tt
      end
  | None => ret tt
  end.

End Callbacks.

(** The host grants the request numbered [p]: the stored callback sets
    [midiAccess] to the access object, and the callbacks waiting on the
    stored promise are queued in the order they were chained. *)
Definition resolve (p : nat) (m : MIDIAccess) (w : world) : world :=
  match requests w !! p with
  | Some r =>
      match status r with
      | Pending =>
          set_jobs (jobs w ++ waiters r)
            (set_midiAccess (Granted m)
               (set_requests
                  (<[p := {| options := options r; status := Fulfilled; waiters := [] |}]>
                     (requests w)) w))
      | _ => w
      end
  | None => w
  end.

(** The host refuses the request numbered [p]: nothing is chained on the
    rejection, so the stored callback does not run, [midiAccess] keeps the
    promise, and the waiting callbacks are dropped. *)
Definition reject (p : nat) (e : error) (w : world) : world :=
  match requests w !! p with
  | Some r =>
      match status r with
      | Pending =>
          set_requests
            (<[p := {| options := options r; status := Rejected e; waiters := [] |}]>
               (requests w)) w
      | _ => w
      end
  | None => w
  end.

(** The innermost [next] of a store that mounts [reducer] at [stateKey]:
    the action is reduced and returned. *)
Definition storeNext : action -> M action := fun action =>
  modify (fun w => set_root (<[stateKey := reducer (root w !! stateKey) action]> (root w)) w);;;
  ret action.

(** [applyMiddleware(inputMiddleware, outputMiddleware)]: the [dispatch]
    of the store. *)
Definition storeDispatch : action -> M action :=
  inputHandler (outputHandler storeNext).

End Middleware.

(** The world when [setup] returns: nothing requested, an empty store. *)
Definition fresh_world : world :=
  {| midiAccess := Unset; requests := []; jobs := []; root := ∅; sent := [];
     next_addr := first_free_addr |}.

(** [n] calls of a computation in a row, with what each returned. *)
Fixpoint repeatM {A} (n : nat) (c : M A) : M (list A) :=
  match n with
  | O => ret []
  | S n' => do x <- c; do xs <- repeatM n' c; ret (x :: xs)
  end.

(** ** [observeStore] *)

(** The variable [currentState] of one [observeStore] call, with a record
    of what the call did: every selection it computed and every
    [onChange(next, prev)] call it made, oldest first. *)
Record observer := {
  currentState : value;
  seen : list value;
  changes : list (value * value)
}.

Section ObserveStore.

(** The store with whatever else its callbacks can reach, its states,
    and what [subscribe] returns. *)
Variables E S U : Type.

Variable getState : E -> S.
Variable subscribe : (E * observer -> E * observer) -> E -> U * E.
Variable select : S -> value.
Variable onChange : value -> value -> E -> E.

Definition handleChange (w : E * observer) : E * observer :=
  let '(e, o) := w in
  let nextState := select (getState e) in
  if strict_neq nextState (currentState o) then
    let prevState := currentState o in
    (onChange nextState prevState e,
     {| currentState := nextState;
        seen := seen o ++ [nextState];
        changes := changes o ++ [(nextState, prevState)] |})
  else
    (e, {| currentState := currentState o;
           seen := seen o ++ [nextState];
           changes := changes o |}).

Definition observeStore (e : E) : U * (E * observer) :=
  let o := {| currentState := VUndefined; seen := []; changes := [] |} in
  let '(unsubscribe, e) := subscribe handleChange e in
  let w := handleChange (e, o) in
  (unsubscribe, w).

(** The store changes and notifies its listeners, once per element of
    [steps]. *)
Definition notifications (steps : list (E -> E)) (w : E * observer) : E * observer :=
  fold_left (fun w step => handleChange (step (fst w), snd w)) steps w.

End ObserveStore.

(** The [onChange] calls a sequence of selections must give, from the
    selection last seen: one call for each selection that is not identical
    to the one before it. *)
Fixpoint changes_of (last : value) (selections : list value) : list (value * value) :=
  match selections with
  | [] => []
  | s :: rest =>
      if strict_neq s last then (s, last) :: changes_of s rest
      else changes_of last rest
  end.

(** The selection an observer holds after the selections [l], from the
    one it held before. *)
Definition held (l : list value) (last : value) : value :=
  fold_left (fun c s => if strict_neq s c then s else c) l last.

(** What an observer has recorded agrees with what it has seen. *)
Definition consistent (o : observer) : Prop :=
  currentState o = held (seen o) VUndefined /\
  changes o = changes_of VUndefined (seen o).

(** The timestamp of the envelope, the way the spec words it: the received
    time if the event has one, else its [timeStamp], else its [timestamp]. *)
Definition first_defined (receivedTime timeStamp timestamp : value) : value :=
  match receivedTime, timeStamp with
  | VUndefined, VUndefined => timestamp
  | VUndefined, t => t
  | t, _ => t
  end.

(** ** Sample data

    A store that mounts the reducer at [midi], an access object with one
    input and two outputs, and the message of the spec. *)

Definition sample_port (id type : string) : MIDIPort :=
  {| port_id := id; port_manufacturer := VStr "ACME"; port_name := VStr id;
     port_type := VStr type; port_version := VStr "1.0";
     port_state := VStr "connected"; port_connection := VStr "closed";
     onmidimessage := None |}.

Definition sample_access : MIDIAccess :=
  {| inputs := [("in1", sample_port "in1" "input")];
     outputs := [("out1", sample_port "out1" "output");
                 ("out2", sample_port "out2" "output")];
     onstatechange := None |}.

Definition sample_store : world :=
  set_root {[ "midi" := initialState ]} fresh_world.

(** The sample store once [inputMiddleware] was applied: the request is in
    flight. *)
Definition sample_pending : world :=
  snd (inputMiddleware VUndefined sample_store).

(** The sample store once the host has granted the request. *)
Definition sample_ready : world :=
  resolve 0 sample_access sample_pending.

(** [{device: "out1", data: [0x90, 60, 127], timestamp: 5}]. *)
Definition note_on : value :=
  VObj 100 [ ("device", VStr "out1");
             ("data", VArr 101 [VNum 144; VNum 60; VNum 127]);
             ("timestamp", VNum 5) ].

(** A store listening to "b" that knows the device "a" only, with an
    access object whose input "b" has just appeared, and the device list
    that says so. *)
Definition reconnect_access : MIDIAccess :=
  {| inputs := [("b", sample_port "b" "input")];
     outputs := [("a", sample_port "a" "output")];
     onstatechange := Some CallSendDeviceList |}.

Definition reconnect_world : world :=
  {| midiAccess := Granted reconnect_access;
     requests := [{| options := VUndefined; status := Fulfilled; waiters := [] |}];
     jobs := [];
     root := {[ "midi" := {| devices := VArr 20 [VObj 21 [("id", VStr "a")]];
                             listeningDevices := VArr 22 [VStr "b"] |} ]};
     sent := [];
     next_addr := 30 |}.

Definition reconnect_list : value :=
  VArr 23 [VObj 24 [("id", VStr "a")]; VObj 25 [("id", VStr "b")]].

(** ** The example store: [configureStore] *)

(** The reducer mounted at [midiMessages]: a falsy state is replaced by an
    empty array, and the payload of a RECEIVE_MIDI_MESSAGE is put in front
    of a copy of the state. *)
Definition midiMessagesReducer (state : option (list value)) (action : action) : list value :=
  let state := default [] state in
  if String.eqb (type action) RECEIVE_MIDI_MESSAGE then payload action :: state
  else state.

Record rootState := { midi : coreState; midiMessages : list value }.

(** Modelled from the spec: [combineReducers] of redux, the "state
    container" the package is used with: each reducer is given the state
    under its own key, [undefined] when there is no state yet. *)
Definition rootReducer (state : option rootState) (action : action) : rootState :=
  {| midi := reducer (midi <$> state) action;
     midiMessages := midiMessagesReducer (midiMessages <$> state) action |}.

(** The state of the example store after a sequence of actions, from the
    state it is created with. *)
Definition root_after (actions : list action) : rootState :=
  fold_left (fun st a => rootReducer (Some st) a) actions
    (rootReducer None {| type := "@@redux/INIT"; payload := VUndefined |}).

(** ** Runs

    What can happen to one [setup] and the store that applies its two
    middleware, one event after the other. *)
Inductive hostEvent :=
| ApplyInputMiddleware                       (* [inputMiddleware(store)(next)] *)
| Dispatch (a : action)                      (* [store.dispatch(a)] *)
| Grant (p : nat) (m : MIDIAccess)           (* the request [p] is granted *)
| Refuse (p : nat) (e : error)               (* the request [p] is refused *)
| RunJob                                     (* the next promise reaction runs *)
| Plug (ins outs : portMap)                  (* ports appear or disappear *)
| StateChange                                (* the host calls [onstatechange] *)
| Message (port : string) (event : value).   (* a message arrives on an input *)

(** The host replaces the ports of the access object in use. *)
Definition plug (ins outs : portMap) (w : world) : world :=
  match midiAccess w with
  | Granted m =>
      set_midiAccess (Granted {| inputs := ins; outputs := outs;
                                 onstatechange := onstatechange m |}) w
  | _ => w
  end.

Definition step (midiOptions : value) (stateKey : string) (ev : hostEvent) (w : world) : world :=
  let dispatch := storeDispatch midiOptions stateKey in
  match ev with
  | ApplyInputMiddleware => snd (inputMiddleware midiOptions w)
  | Dispatch a => snd (dispatch a w)
  | Grant p m => resolve p m w
  | Refuse p e => reject p e w
  | RunJob => run_job stateKey dispatch w
  | Plug ins outs => plug ins outs w
  | StateChange => snd (statechange stateKey dispatch w)
  | Message port event => snd (midimessage dispatch port event w)
  end.

Definition run (midiOptions : value) (stateKey : string) (events : list hostEvent)
    (w : world) : world :=
  fold_left (fun w ev => step midiOptions stateKey ev w) events w.

(** A computation keeps a property of the world, also when it throws. *)
Definition preserves (I : world -> Prop) {A} (c : M A) : Prop :=
  forall w, I w -> I (snd (c w)).

(** As many requests were made as [midiAccess] tells: none while it is
    [undefined], one from then on. *)
Definition one_request (w : world) : Prop :=
  length (requests w) = match midiAccess w with Unset => 0 | _ => 1 end.

(** Whether the input with key [k] has a message callback. *)
Definition port_listens (m : MIDIAccess) (k : string) : bool :=
  match map_get (inputs m) (VStr k) with
  | Some p => match onmidimessage p with Some _ => true | None => false end
  | None => false
  end.

(** Every callback on an input is the one installed for the key of that
    input. *)
Definition callbacks_ok (ins : portMap) : Prop :=
  Forall (fun kp => forall d, onmidimessage (snd kp) = Some (Listener d) -> d = VStr (fst kp)) ins.

Definition callbacks_match (w : world) : Prop :=
  match midiAccess w with
  | Granted m => callbacks_ok (inputs m)
  | _ => True
  end.

(** The ports the host hands over carry no callback of somebody else. *)
Definition host_ports_ok (ev : hostEvent) : Prop :=
  match ev with
  | Grant _ m => callbacks_ok (inputs m)
  | Plug ins _ => callbacks_ok ins
  | _ => True
  end.

(** Membership of a string in a list, as a boolean. *)
Definition mem (k : string) (l : list string) : bool := existsb (String.eqb k) l.

(** The body shared by the loops over [toUnlisten] and [toListen]: the
    callback [cb device] is assigned if [device] is a key of the inputs. *)
Definition assign_if_known (cb : value -> option listener) (device : value) : M unit :=
  do known <- inputs_has device;
  if known then assign_onmidimessage device (cb device) else ret tt.

(** Whether a callback is there. *)
Definition installed (cb : option listener) : bool :=
  match cb with Some _ => true | None => false end.

(** The requests made are as many as [midiAccess] tells, and each was
    made with the options [setup] was given. *)
Definition requests_ok (midiOptions : value) (w : world) : Prop :=
  one_request w /\ Forall (fun r => options r = midiOptions) (requests w).

(** The one request was refused with [e], [midiAccess] still holds its
    promise, and the calls of [send] made so far are [s]. *)
Definition refused (e : error) (s : list sendCall) (w : world) : Prop :=
  midiAccess w = InFlight 0 /\
  (exists r, requests w = [r] /\ status r = Rejected e) /\
  sent w = s.

(** Two access objects whose ports, inputs then outputs, have the same
    descriptors: they differ by callbacks at most. *)
Definition same_ports (m m' : MIDIAccess) : Prop :=
  map (descriptor 0) (map_values (inputs m') ++ map_values (outputs m')) =
  map (descriptor 0) (map_values (inputs m) ++ map_values (outputs m)).

(** The store holds [r], the queued reactions are [j], the calls of
    [send] made are [s], and the access object in use has the ports and the
    [onstatechange] of [m]. *)
Definition snapshot_kept (r : gmap string coreState) (j : list continuation)
    (s : list sendCall) (m : MIDIAccess) (w : world) : Prop :=
  root w = r /\ jobs w = j /\ sent w = s /\
  exists m', midiAccess w = Granted m' /\ same_ports m m' /\
             onstatechange m' = onstatechange m.

(** A SEND_MIDI_MESSAGE whose payload is an object. *)
Definition is_send (a : action) : Prop :=
  type a = SEND_MIDI_MESSAGE /\ exists o fs, payload a = VObj o fs.

(** The [send] closure the output middleware makes for an action. *)
Definition send_of (a : action) : continuation :=
  Send (Lodash.property "timestamp" (payload a))
       (Lodash.property "data" (payload a))
       (Lodash.property "device" (payload a)).

(** The [send] call an action asks for, if its device is an output of [m]. *)
Definition call_of (m : MIDIAccess) (a : action) : list sendCall :=
  match map_get (outputs m) (Lodash.property "device" (payload a)) with
  | Some port =>
      [{| to := port; sent_data := Lodash.property "data" (payload a);
          sent_timestamp := Lodash.property "timestamp" (payload a) |}]
  | None => []
  end.

(* ================================================================== *)
(** * Properties *)

(** ** The reducer *)

Lemma reducer_eq (state : option coreState) (a : action) :
  reducer state a =
    let st := default initialState state in
    if String.eqb (type a) RECEIVE_DEVICE_LIST then
      {| devices := payload a; listeningDevices := listeningDevices st |}
    else if String.eqb (type a) SET_LISTENING_DEVICES then
      {| devices := devices st; listeningDevices := payload a |}
    else st.
Proof.
  unfold reducer, Duck.createReducer. cbn [Duck.find_case].
  rewrite (String.eqb_sym RECEIVE_DEVICE_LIST), (String.eqb_sym SET_LISTENING_DEVICES).
  cbv zeta.
  destruct (String.eqb (type a) RECEIVE_DEVICE_LIST); [reflexivity|].
  destruct (String.eqb (type a) SET_LISTENING_DEVICES); reflexivity.
Qed.

Lemma kinds_distinct :
  String.eqb RECEIVE_DEVICE_LIST SET_LISTENING_DEVICES = false.
Proof. reflexivity. Qed.

Lemma reduce_all_fields (actions : list action) : forall st,
  reduce_all st actions =
    {| devices := last_payload RECEIVE_DEVICE_LIST (devices st) actions;
       listeningDevices := last_payload SET_LISTENING_DEVICES (listeningDevices st) actions |}.
Proof.
  induction actions as [|a actions IH]; intros st.
  - destruct st; reflexivity.
  - unfold reduce_all, last_payload in *. cbn [fold_left].
    rewrite IH, reducer_eq. cbn [default]. cbv zeta.
    destruct (String.eqb (type a) RECEIVE_DEVICE_LIST) eqn:Hd.
    + apply String.eqb_eq in Hd. rewrite Hd, kinds_distinct. reflexivity.
    + destruct (String.eqb (type a) SET_LISTENING_DEVICES); reflexivity.
Qed.

(** C1: the reducer replaces [devices] by the payload of RECEIVE_DEVICE_LIST
    and [listeningDevices] by the payload of SET_LISTENING_DEVICES, each time
    leaving the other field as it was; it returns the state it was given for
    RECEIVE_MIDI_MESSAGE, SEND_MIDI_MESSAGE and every other kind; called
    without a state it starts from [{devices: [], listeningDevices: []}];
    and after any sequence of actions each field is the payload of the most
    recent action of its kind (the field of the starting state when there
    was none). *)
Theorem reducer_last_write_wins :
  (forall st p,
     reducer (Some st) {| type := RECEIVE_DEVICE_LIST; payload := p |} =
       {| devices := p; listeningDevices := listeningDevices st |}) /\
  (forall st p,
     reducer (Some st) {| type := SET_LISTENING_DEVICES; payload := p |} =
       {| devices := devices st; listeningDevices := p |}) /\
  (forall st p, reducer (Some st) {| type := RECEIVE_MIDI_MESSAGE; payload := p |} = st) /\
  (forall st p, reducer (Some st) {| type := SEND_MIDI_MESSAGE; payload := p |} = st) /\
  (forall st a,
     reducer (Some st) a =
       if String.eqb (type a) RECEIVE_DEVICE_LIST then
         {| devices := payload a; listeningDevices := listeningDevices st |}
       else if String.eqb (type a) SET_LISTENING_DEVICES then
         {| devices := devices st; listeningDevices := payload a |}
       else st) /\
  (forall a, reducer None a = reducer (Some initialState) a) /\
  (exists a b, a <> b /\
     initialState = {| devices := VArr a []; listeningDevices := VArr b [] |}) /\
  (forall st actions,
     devices (reduce_all st actions) =
       last_payload RECEIVE_DEVICE_LIST (devices st) actions /\
     listeningDevices (reduce_all st actions) =
       last_payload SET_LISTENING_DEVICES (listeningDevices st) actions).
Proof.
  repeat apply conj.
  - intros st p. rewrite reducer_eq. reflexivity.
  - intros st p. rewrite reducer_eq. reflexivity.
  - intros st p. rewrite reducer_eq. reflexivity.
  - intros st p. rewrite reducer_eq. reflexivity.
  - intros st a. apply reducer_eq.
  - intros a. rewrite !reducer_eq. reflexivity.
  - exists 0, 1. split; [lia | reflexivity].
  - intros st actions. rewrite reduce_all_fields. split; reflexivity.
Qed.

(** ** [requestMIDIAccessOnce] *)

Lemma repeatM_idle {A} (c : M A) (x : A) (w : world) (n : nat) :
  c w = (Ok x, w) -> repeatM n c w = (Ok (repeat x n), w).
Proof.
  intros Hc. induction n as [|n IH]; [reflexivity|].
  cbn [repeatM repeat]. unfold bind at 1. rewrite Hc.
  unfold bind at 1. rewrite IH. reflexivity.
Qed.

Lemma once_in_flight (midiOptions : value) (w : world) (p : nat) :
  midiAccess w = InFlight p ->
  requestMIDIAccessOnce midiOptions w = (Ok (Stored p), w).
Proof.
  intros H. unfold requestMIDIAccessOnce, bind, gets. rewrite H. reflexivity.
Qed.

Lemma once_granted (midiOptions : value) (w : world) (m : MIDIAccess) :
  midiAccess w = Granted m ->
  requestMIDIAccessOnce midiOptions w = (Ok Resolved, w).
Proof.
  intros H. unfold requestMIDIAccessOnce, bind, gets. rewrite H. reflexivity.
Qed.

Lemma once_unset (midiOptions : value) (w : world) :
  midiAccess w = Unset ->
  requestMIDIAccessOnce midiOptions w =
    (Ok (Stored (length (requests w))),
     set_midiAccess (InFlight (length (requests w)))
       (set_requests
          (requests w ++ [{| options := midiOptions; status := Pending; waiters := [] |}]) w)).
Proof.
  intros H. unfold requestMIDIAccessOnce, bind, gets. rewrite H. reflexivity.
Qed.

Lemma lookup_new_request (rs : list request) (r : request) :
  (rs ++ [r]) !! length rs = Some r.
Proof.
  rewrite lookup_app_r by lia. rewrite Nat.sub_diag. reflexivity.
Qed.

Lemma resolve_pending (p : nat) (m : MIDIAccess) (w : world) (r : request) :
  requests w !! p = Some r -> status r = Pending ->
  resolve p m w =
    set_jobs (jobs w ++ waiters r)
      (set_midiAccess (Granted m)
         (set_requests
            (<[p := {| options := options r; status := Fulfilled; waiters := [] |}]>
               (requests w)) w)).
Proof. intros Hr Hs. unfold resolve. rewrite Hr, Hs. reflexivity. Qed.

Lemma reject_pending (p : nat) (e : error) (w : world) (r : request) :
  requests w !! p = Some r -> status r = Pending ->
  reject p e w =
    set_requests
      (<[p := {| options := options r; status := Rejected e; waiters := [] |}]>
         (requests w)) w.
Proof. intros Hr Hs. unfold reject. rewrite Hr, Hs. reflexivity. Qed.

(** C3: from a [setup] that has requested nothing yet, any number of calls
    of [requestMIDIAccessOnce] in a row make one call of the underlying
    [requestMIDIAccess] and all return the same stored promise; while that
    promise is stored a call changes nothing; and once the host has granted
    the request every call returns the access object, resolved, and
    requests nothing. *)
Theorem requestMIDIAccessOnce_one_request (midiOptions : value) (w : world) (n : nat) :
  midiAccess w = Unset ->
  let p := length (requests w) in
  exists w',
    repeatM (S n) (requestMIDIAccessOnce midiOptions) w = (Ok (repeat (Stored p) (S n)), w') /\
    length (requests w') = S (length (requests w)) /\
    requests w' !! p = Some {| options := midiOptions; status := Pending; waiters := [] |} /\
    midiAccess w' = InFlight p /\
    (forall v : world, midiAccess v = InFlight p ->
       requestMIDIAccessOnce midiOptions v = (Ok (Stored p), v)) /\
    (forall (m : MIDIAccess) (k : nat),
       midiAccess (resolve p m w') = Granted m /\
       length (requests (resolve p m w')) = S (length (requests w)) /\
       repeatM k (requestMIDIAccessOnce midiOptions) (resolve p m w') =
         (Ok (repeat Resolved k), resolve p m w')).
Proof.
  intros Hw p.
  eexists. split.
  { cbn [repeatM repeat]. unfold bind at 1. rewrite (once_unset _ _ Hw).
    unfold bind at 1. rewrite (repeatM_idle _ (Stored p)); [reflexivity|].
    apply once_in_flight. reflexivity. }
  cbn [requests midiAccess set_midiAccess set_requests].
  repeat apply conj.
  - rewrite length_app. cbn. lia.
  - apply lookup_new_request.
  - reflexivity.
  - intros v Hv. apply once_in_flight, Hv.
  - intros m k.
    erewrite resolve_pending; [| cbn; apply lookup_new_request | reflexivity].
    cbn [requests midiAccess set_midiAccess set_requests set_jobs].
    repeat apply conj.
    + reflexivity.
    + rewrite length_insert, length_app. cbn. lia.
    + apply repeatM_idle. eapply once_granted. reflexivity.
Qed.

Lemma requestMIDIAccessOnce_one_request_witness :
  midiAccess fresh_world = Unset /\
  exists w',
    repeatM 3 (requestMIDIAccessOnce VUndefined) fresh_world = (Ok (repeat (Stored 0) 3), w') /\
    length (requests w') = 1 /\
    midiAccess w' = InFlight 0.
Proof.
  split; [reflexivity|].
  destruct (requestMIDIAccessOnce_one_request VUndefined fresh_world 2 eq_refl)
    as (w' & Hrun & Hlen & _ & Hcell & _).
  exists w'. repeat apply conj; assumption.
Defined.

(** C4, as the code has it: when the host refuses the request, the stored
    promise stays in [midiAccess]; a later call of [requestMIDIAccessOnce]
    returns that same promise, now rejected, and makes no new call of the
    underlying [requestMIDIAccess]. *)
Theorem rejected_request_is_kept (midiOptions : value) (w : world) (p : nat)
    (r : request) (e : error) :
  midiAccess w = InFlight p ->
  requests w !! p = Some r ->
  status r = Pending ->
  let w' := reject p e w in
  requestMIDIAccessOnce midiOptions w' = (Ok (Stored p), w') /\
  midiAccess w' = InFlight p /\
  status <$> requests w' !! p = Some (Rejected e) /\
  length (requests w') = length (requests w).
Proof.
  intros Hc Hr Hs w'. subst w'. rewrite (reject_pending _ _ _ _ Hr Hs).
  repeat apply conj.
  - apply once_in_flight. exact Hc.
  - exact Hc.
  - cbn [requests set_requests]. rewrite list_lookup_insert_eq; [reflexivity|].
    eapply lookup_lt_Some, Hr.
  - cbn [requests set_requests]. apply length_insert.
Qed.

Lemma rejected_request_is_kept_witness :
  let w := snd (requestMIDIAccessOnce VUndefined fresh_world) in
  let e := Error "Web MIDI API not available" in
  midiAccess w = InFlight 0 /\
  requestMIDIAccessOnce VUndefined (reject 0 e w) = (Ok (Stored 0), reject 0 e w) /\
  length (requests (reject 0 e w)) = 1.
Proof.
  cbv zeta. split; [reflexivity|].
  destruct (rejected_request_is_kept VUndefined
              (snd (requestMIDIAccessOnce VUndefined fresh_world)) 0
              {| options := VUndefined; status := Pending; waiters := [] |}
              (Error "Web MIDI API not available") eq_refl eq_refl eq_refl)
    as (Hcall & _ & _ & Hlen).
  split; [exact Hcall | exact Hlen].
Defined.

(** C4, as the spec has it, fails: the request is made, the host refuses
    it, and the next call of [requestMIDIAccessOnce] returns the promise of
    that refused request without calling [requestMIDIAccess] again. *)
Lemma rejected_request_not_reissued :
  let w1 := snd (requestMIDIAccessOnce VUndefined fresh_world) in
  let w2 := reject 0 (Error "Web MIDI API not available") w1 in
  let w3 := snd (requestMIDIAccessOnce VUndefined w2) in
  length (requests w1) = 1 /\
  status <$> requests w2 !! 0 = Some (Rejected (Error "Web MIDI API not available")) /\
  fst (requestMIDIAccessOnce VUndefined w2) = Ok (Stored 0) /\
  ~ length (requests w3) = S (length (requests w2)).
Proof.
  cbv zeta. repeat apply conj; try reflexivity.
  cbn. discriminate.
Qed.

(** ** The output middleware *)

Lemma map_has_get (m : portMap) (key : value) :
  map_has m key = true -> exists port, map_get m key = Some port.
Proof.
  destruct key; cbn; try discriminate.
  induction m as [|[k q] m IH]; cbn; [discriminate|].
  destruct (String.eqb k s); cbn; [eauto|exact IH].
Qed.

Lemma map_get_has (m : portMap) (key : value) (port : MIDIPort) :
  map_get m key = Some port -> map_has m key = true.
Proof.
  destruct key; cbn; try discriminate.
  induction m as [|[k q] m IH]; cbn; [discriminate|].
  destruct (String.eqb k s); cbn; [reflexivity|exact IH].
Qed.

Lemma send_known (w : world) (m : MIDIAccess) (timestamp data device : value)
    (port : MIDIPort) :
  midiAccess w = Granted m ->
  map_get (outputs m) device = Some port ->
  send timestamp data device w =
    (Ok tt, set_sent (sent w ++ [{| to := port; sent_data := data;
                                    sent_timestamp := timestamp |}]) w).
Proof.
  intros Hc Hg. unfold send, access_map, bind, gets. rewrite Hc. cbn.
  rewrite (map_get_has _ _ _ Hg), Hg. reflexivity.
Qed.

Lemma send_unknown (w : world) (m : MIDIAccess) (timestamp data device : value) :
  midiAccess w = Granted m ->
  map_has (outputs m) device = false ->
  send timestamp data device w = (Ok tt, w).
Proof.
  intros Hc Hh. unfold send, access_map, bind, gets. rewrite Hc. cbn.
  rewrite Hh. reflexivity.
Qed.

Section OutputMiddleware.

Variable midiOptions : value.
Variable next : action -> M action.
Variables (a a' : action) (w w1 : world).
Variables timestamp data device : value.

Hypothesis Hnext : next a w = (Ok a', w1).
Hypothesis Hkind : type a' = SEND_MIDI_MESSAGE.
Hypothesis Htimestamp : prop (payload a') "timestamp" = Ok timestamp.
Hypothesis Hdata : prop (payload a') "data" = Ok data.
Hypothesis Hdevice : prop (payload a') "device" = Ok device.

Lemma outputHandler_after_next :
  outputHandler midiOptions next a w =
    match midiAccess w1 with
    | Granted _ =>
        match send timestamp data device w1 with
        | (Ok _, w2) => (Ok a', w2)
        | (Throw e, w2) => (Throw e, w2)
        end
    | _ =>
        match (do p <- requestMIDIAccessOnce midiOptions;
               then_ p (Send timestamp data device)) w1 with
        | (Ok _, w2) => (Ok a', w2)
        | (Throw e, w2) => (Throw e, w2)
        end
    end.
Proof.
  unfold outputHandler. unfold bind at 1. rewrite Hnext.
  rewrite Hkind. change (String.eqb SEND_MIDI_MESSAGE SEND_MIDI_MESSAGE) with true.
  cbv iota. rewrite Htimestamp, Hdata, Hdevice.
  unfold bind at 1. unfold bind at 1. unfold lift at 1. unfold bind at 1.
  unfold lift at 1. unfold bind at 1. unfold lift at 1.
  unfold bind at 1. unfold gets at 1.
  destruct (midiAccess w1) eqn:Hc.
  - destruct (bind _ _ w1) as [[u|e] w2]; reflexivity.
  - destruct (bind _ _ w1) as [[u|e] w2]; reflexivity.
  - destruct (send _ _ _ w1) as [[u|e] w2]; reflexivity.
Qed.

End OutputMiddleware.

Lemma then_pending (w : world) (p : nat) (r : request) (k : continuation) :
  requests w !! p = Some r -> status r = Pending ->
  then_ (Stored p) k w = (Ok tt, set_requests (<[p := add_waiter k r]> (requests w)) w).
Proof.
  intros Hr Hs. unfold then_, bind, gets, modify. rewrite Hr, Hs. reflexivity.
Qed.

(** C2: the output middleware forwards the action first.  When what comes
    back is a SEND_MIDI_MESSAGE with payload [{timestamp, data, device}]:
    - with the access object ready, a [device] found among the outputs gets
      exactly one [send(data, timestamp)] call, on that port, and nothing
      else is sent; a [device] that is not found gets no call, and the
      action is returned without an error;
    - with the request still in flight, nothing is sent yet: [send] is
      chained once on the stored promise, and is queued once, after the
      callbacks chained before it, when the host grants the request;
    - with nothing requested yet, the request is made and [send] chained on
      its promise in the same way;
    - when the queued [send] runs, the same holds as in the ready case, for
      the outputs known at that time. *)
Theorem outputMiddleware_routes_send (midiOptions : value) (next : action -> M action)
    (a a' : action) (w w1 : world) (timestamp data device : value) :
  next a w = (Ok a', w1) ->
  type a' = SEND_MIDI_MESSAGE ->
  prop (payload a') "timestamp" = Ok timestamp ->
  prop (payload a') "data" = Ok data ->
  prop (payload a') "device" = Ok device ->
  (forall m, midiAccess w1 = Granted m ->
     (map_has (outputs m) device = true ->
      exists port,
        map_get (outputs m) device = Some port /\
        outputHandler midiOptions next a w =
          (Ok a', set_sent (sent w1 ++ [{| to := port; sent_data := data;
                                           sent_timestamp := timestamp |}]) w1)) /\
     (map_has (outputs m) device = false ->
      outputHandler midiOptions next a w = (Ok a', w1))) /\
  (forall p r, midiAccess w1 = InFlight p ->
     requests w1 !! p = Some r -> status r = Pending ->
     let w2 := set_requests (<[p := add_waiter (Send timestamp data device) r]> (requests w1)) w1 in
     outputHandler midiOptions next a w = (Ok a', w2) /\
     sent w2 = sent w1 /\
     forall m, jobs (resolve p m w2) = jobs w1 ++ waiters r ++ [Send timestamp data device] /\
               midiAccess (resolve p m w2) = Granted m /\
               sent (resolve p m w2) = sent w1) /\
  (midiAccess w1 = Unset ->
   exists w2,
     outputHandler midiOptions next a w = (Ok a', w2) /\
     sent w2 = sent w1 /\
     midiAccess w2 = InFlight (length (requests w1)) /\
     requests w2 =
       requests w1 ++ [{| options := midiOptions; status := Pending;
                          waiters := [Send timestamp data device] |}]) /\
  (forall stateKey dispatch v m, midiAccess v = Granted m ->
     (map_has (outputs m) device = true ->
      exists port,
        map_get (outputs m) device = Some port /\
        run_continuation stateKey dispatch (Send timestamp data device) v =
          (Ok tt, set_sent (sent v ++ [{| to := port; sent_data := data;
                                          sent_timestamp := timestamp |}]) v)) /\
     (map_has (outputs m) device = false ->
      run_continuation stateKey dispatch (Send timestamp data device) v = (Ok tt, v))).
Proof.
  intros Hnext Hkind Hts Hdata Hdev.
  pose proof (outputHandler_after_next midiOptions next a a' w w1 timestamp data device
                Hnext Hkind Hts Hdata Hdev) as Hrun.
  repeat apply conj.
  - intros m Hc. rewrite Hc in Hrun. split.
    + intros Hhas. destruct (map_has_get _ _ Hhas) as [port Hport].
      exists port. split; [exact Hport|].
      rewrite Hrun, (send_known _ _ _ _ _ _ Hc Hport). reflexivity.
    + intros Hhas. rewrite Hrun, (send_unknown _ _ _ _ _ Hc Hhas). reflexivity.
  - intros p r Hc Hr Hs w2. rewrite Hc in Hrun.
    repeat apply conj.
    + rewrite Hrun. unfold bind at 1. rewrite (once_in_flight _ _ _ Hc).
      rewrite (then_pending _ _ _ _ Hr Hs). reflexivity.
    + reflexivity.
    + intros m.
      assert (Hlt : p < length (requests w1)) by (eapply lookup_lt_Some, Hr).
      erewrite resolve_pending;
        [| subst w2; cbn [requests set_requests];
           apply list_lookup_insert_eq, Hlt
         | cbn; exact Hs ].
      cbn. repeat apply conj; reflexivity.
  - intros Hc. rewrite Hc in Hrun. eexists. split.
    { rewrite Hrun. unfold bind at 1. rewrite (once_unset _ _ Hc).
      erewrite then_pending;
        [reflexivity | cbn; apply lookup_new_request | reflexivity]. }
    cbn. repeat apply conj; try reflexivity.
    rewrite insert_app_r_alt by lia. rewrite Nat.sub_diag. reflexivity.
  - intros stateKey dispatch v m Hc. cbn [run_continuation]. split.
    + intros Hhas. destruct (map_has_get _ _ Hhas) as [port Hport].
      exists port. split; [exact Hport|]. apply (send_known _ _ _ _ _ _ Hc Hport).
    + intros Hhas. apply (send_unknown _ _ _ _ _ Hc Hhas).
Qed.

Lemma outputMiddleware_routes_send_witness :
  let a := sendMidiMessage note_on in
  let w1 := snd (storeNext "midi" a sample_ready) in
  storeNext "midi" a sample_ready = (Ok a, w1) /\
  map_has (outputs sample_access) (VStr "out1") = true /\
  outputHandler VUndefined (storeNext "midi") a sample_ready =
    (Ok a, set_sent [{| to := sample_port "out1" "output";
                        sent_data := VArr 101 [VNum 144; VNum 60; VNum 127];
                        sent_timestamp := VNum 5 |}] w1).
Proof.
  cbv zeta. split; [reflexivity|]. split; [reflexivity|].
  destruct (outputMiddleware_routes_send VUndefined (storeNext "midi")
              (sendMidiMessage note_on) (sendMidiMessage note_on) sample_ready
              (snd (storeNext "midi" (sendMidiMessage note_on) sample_ready))
              (VNum 5) (VArr 101 [VNum 144; VNum 60; VNum 127]) (VStr "out1")
              eq_refl eq_refl eq_refl eq_refl eq_refl) as (Hready & _ & _ & _).
  destruct (Hready sample_access eq_refl) as [Hknown _].
  destruct (Hknown eq_refl) as (port & Hport & Hrun).
  cbn in Hport. injection Hport as <-. exact Hrun.
Defined.

(** ** The input middleware: what to listen to *)





Lemma filterM_pure (f : value -> M bool) (g : value -> bool) (xs : list value) (w : world) :
  (forall x, f x w = (Ok (g x), w)) ->
  filterM f xs w = (Ok (List.filter g xs), w).
Proof.
  intros Hf. induction xs as [|x xs IH]; [reflexivity|].
  cbn [filterM List.filter]. unfold bind at 1. rewrite Hf.
  unfold bind at 1. rewrite IH. unfold ret. destruct (g x); reflexivity.
Qed.

Lemma inputs_has_granted (w : world) (m : MIDIAccess) (device : value) :
  midiAccess w = Granted m ->
  inputs_has device w = (Ok (map_has (inputs m) device), w).
Proof.
  intros Hc. unfold inputs_has, access_map, bind, gets. rewrite Hc. reflexivity.
Qed.

Section Diff.

Variables (w : world) (m : MIDIAccess) (prevState state : coreState).
Variables (aP aN : addr) (prevL nextL : list string) (prevIds nextIds : list value).

Hypothesis Hprev : listeningDevices prevState = VArr aP (map VStr prevL).
Hypothesis Hnext : listeningDevices state = VArr aN (map VStr nextL).
Hypothesis Hdevices :
  strict_neq (devices state) (devices prevState) = true ->
  midiAccess w = Granted m /\
  device_ids (devices prevState) = Ok prevIds /\
  device_ids (devices state) = Ok nextIds.

Lemma diff_granted :
  diff prevState (Some state) w =
    (Ok ((if strict_neq (listeningDevices state) (listeningDevices prevState) then
            List.filter (fun dev => negb (set_has (map VStr prevL) dev)) (map VStr nextL)
          else []) ++
         (if strict_neq (devices state) (devices prevState) then
            List.filter (fun device => map_has (inputs m) device &&
                                       set_has nextIds device &&
                                       negb (set_has prevIds device))
                        (map VStr nextL)
          else []),
         if strict_neq (listeningDevices state) (listeningDevices prevState) then
           List.filter (fun dev => negb (set_has (map VStr nextL) dev)) (map VStr prevL)
         else []),
     w).
Proof.
  unfold diff. cbn [member].
  unfold bind, ret, lift, gets. rewrite Hprev, Hnext.
  cbn [newSet array_filter as_array obind].
  destruct (strict_neq (devices state) (devices prevState)) eqn:HD.
  - destruct (Hdevices eq_refl) as (Hcell & HdP & HdN). rewrite HdP, HdN.
    destruct (strict_neq (VArr aN (map VStr nextL)) (VArr aP (map VStr prevL)));
      (erewrite filterM_pure; [reflexivity|]; intros x;
       rewrite (inputs_has_granted _ _ _ Hcell); reflexivity).
  - destruct (strict_neq (VArr aN (map VStr nextL)) (VArr aP (map VStr prevL)));
      reflexivity.
Qed.

End Diff.


Lemma inputHandler_after_next (stateKey : string) (next : action -> M action)
    (a a' : action) (w0 w : world) :
  next a w0 = (Ok a', w) ->
  inputHandler stateKey next a w0 =
    (do '(toListen, toUnlisten) <-
       diff (default initialState (root w0 !! stateKey)) (root w !! stateKey);
     forEach unlisten toUnlisten;;;
     forEach listen toListen;;;
     ret a') w.
Proof.
  intros Hnext. unfold inputHandler, getSlice.
  unfold bind at 1. unfold gets at 1. unfold bind at 1. rewrite Hnext.
  unfold bind at 1. unfold gets at 1. reflexivity.
Qed.



(** C5: the handler does not survive a request that is still in flight.
    The store listens to nothing, the request of [inputMiddleware] has not
    been answered, and [setListeningDevices(["in1"])] is dispatched: the
    action is forwarded and reduced, [toListen] is [["in1"]], and the loop
    over it reads [midiAccess.inputs.has] on the promise, which throws.  The
    same happens when a device list arrives while the store listens to
    something.  Once the request is granted the same dispatch returns the
    action. *)
Theorem inputHandler_throws_in_flight :
  let next := outputHandler VUndefined (storeNext "midi") in
  let a := setListeningDevices (VArr 40 [VStr "in1"]) in
  midiAccess sample_pending = InFlight 0 /\
  status <$> requests sample_pending !! 0 = Some Pending /\
  fst (inputHandler "midi" next a sample_pending) =
    Throw (TypeError "Cannot read property 'has' of undefined") /\
  listeningDevices <$> root (snd (inputHandler "midi" next a sample_pending)) !! "midi" =
    Some (VArr 40 [VStr "in1"]) /\
  fst (inputHandler "midi" next (receiveDeviceList reconnect_list)
         (set_midiAccess (InFlight 0) reconnect_world)) =
    Throw (TypeError "Cannot read property 'has' of undefined") /\
  fst (inputHandler "midi" next a sample_ready) = Ok a.
Proof.
  cbv zeta. repeat apply conj; reflexivity.
Qed.

(** ** The input middleware: messages *)

Lemma map_get_set_onmidimessage (m : portMap) (s : string) (cb : option listener) :
  map_has m (VStr s) = true ->
  onmidimessage <$> map_get (set_onmidimessage s cb m) (VStr s) = Some cb.
Proof.
  cbn. induction m as [|[k p] m IH]; cbn; [discriminate|].
  destruct (String.eqb k s) eqn:Hk; cbn.
  - rewrite Hk. reflexivity.
  - rewrite Hk. exact IH.
Qed.

Lemma listen_known (w : world) (m : MIDIAccess) (s : string) :
  midiAccess w = Granted m ->
  map_has (inputs m) (VStr s) = true ->
  listen (VStr s) w =
    (Ok tt, set_midiAccess (Granted
       {| inputs := set_onmidimessage s (Some (Listener (VStr s))) (inputs m);
          outputs := outputs m; onstatechange := onstatechange m |}) w).
Proof.
  intros Hc Hh. unfold listen. unfold bind at 1.
  rewrite (inputs_has_granted _ _ _ Hc), Hh.
  unfold assign_onmidimessage, bind, gets, modify. rewrite Hc.
  destruct (map_has_get _ _ Hh) as [port ->]. reflexivity.
Qed.

Lemma call_listener_eq (dispatch : action -> M action) (device : value)
    (ea : addr) (fields : list (string * value)) (w : world) :
  call_listener dispatch (Listener device) (VObj ea fields) w =
    (dispatch (receiveMidiMessage
       (VObj (next_addr w)
          [ ("timestamp", first_defined (field "receivedTime" fields)
                            (field "timeStamp" fields) (field "timestamp" fields));
            ("data", field "data" fields);
            ("device", device) ]));;; ret tt)
      (set_next_addr (S (next_addr w)) w).
Proof.
  unfold call_listener. cbn [prop]. unfold bind at 1. unfold lift at 1.
  unfold bind at 1. unfold lift at 1. unfold bind at 1. unfold lift at 1.
  unfold bind at 1. unfold lift at 1. unfold bind at 1. unfold alloc at 1.
  replace (hd VUndefined _) with
    (first_defined (field "receivedTime" fields) (field "timeStamp" fields)
       (field "timestamp" fields)); [reflexivity|].
  destruct (field "receivedTime" fields), (field "timeStamp" fields),
    (field "timestamp" fields); reflexivity.
Qed.

(** C8: once the handler has listened to the input [id], a message event
    on that port makes the installed callback dispatch one
    RECEIVE_MIDI_MESSAGE whose payload has for [timestamp] the first of the
    event's [receivedTime], [timeStamp] and [timestamp] that is not
    [undefined], for [data] the event's [data] and for [device] the id;
    an event with a [timestamp] only gives that [timestamp]. *)
Theorem listener_dispatches_envelope (w : world) (m : MIDIAccess) (id : string) :
  midiAccess w = Granted m ->
  map_has (inputs m) (VStr id) = true ->
  exists w',
    listen (VStr id) w = (Ok tt, w') /\
    (forall (dispatch : action -> M action) (ea : addr) (fields : list (string * value)),
       midimessage dispatch id (VObj ea fields) w' =
         (dispatch
            {| type := RECEIVE_MIDI_MESSAGE;
               payload :=
                 VObj (next_addr w')
                   [ ("timestamp",
                      first_defined (field "receivedTime" fields)
                        (field "timeStamp" fields) (field "timestamp" fields));
                     ("data", field "data" fields);
                     ("device", VStr id) ] |};;; ret tt)
           (set_next_addr (S (next_addr w')) w')) /\
    (forall (dispatch : action -> M action) (ea : addr) (t data : value),
       midimessage dispatch id (VObj ea [("timestamp", t); ("data", data)]) w' =
         (dispatch
            {| type := RECEIVE_MIDI_MESSAGE;
               payload := VObj (next_addr w')
                            [("timestamp", t); ("data", data); ("device", VStr id)] |};;;
          ret tt)
           (set_next_addr (S (next_addr w')) w')).
Proof.
  intros Hc Hh. eexists. split; [apply (listen_known _ _ _ Hc Hh)|].
  assert (Hrun : forall dispatch event,
    midimessage dispatch id event
      (set_midiAccess (Granted
         {| inputs := set_onmidimessage id (Some (Listener (VStr id))) (inputs m);
            outputs := outputs m; onstatechange := onstatechange m |}) w) =
    call_listener dispatch (Listener (VStr id)) event
      (set_midiAccess (Granted
         {| inputs := set_onmidimessage id (Some (Listener (VStr id))) (inputs m);
            outputs := outputs m; onstatechange := onstatechange m |}) w)).
  { intros dispatch event. unfold midimessage, access_map.
    unfold bind at 1. unfold bind at 1. unfold gets at 1. cbn [midiAccess set_midiAccess].
    unfold ret at 1. cbn [inputs].
    pose proof (map_get_set_onmidimessage (inputs m) id (Some (Listener (VStr id))) Hh)
      as Hget.
    destruct (map_get _ (VStr id)) as [port|]; [|discriminate Hget].
    cbn in Hget. injection Hget as ->. reflexivity. }
  split.
  - intros dispatch ea fields. rewrite Hrun, call_listener_eq. reflexivity.
  - intros dispatch ea t data. rewrite Hrun, call_listener_eq. reflexivity.
Qed.

Lemma listener_dispatches_envelope_witness :
  midiAccess sample_ready = Granted sample_access /\
  map_has (inputs sample_access) (VStr "in1") = true /\
  exists w',
    listen (VStr "in1") sample_ready = (Ok tt, w') /\
    midimessage (storeNext "midi") "in1"
        (VObj 50 [("timestamp", VNum 1234); ("data", VArr 51 [VNum 144; VNum 60; VNum 127])])
        w' =
      (storeNext "midi"
         (receiveMidiMessage
            (VObj (next_addr w')
               [ ("timestamp", VNum 1234);
                 ("data", VArr 51 [VNum 144; VNum 60; VNum 127]);
                 ("device", VStr "in1") ]));;; ret tt)
        (set_next_addr (S (next_addr w')) w').
Proof.
  split; [reflexivity|]. split; [reflexivity|].
  destruct (listener_dispatches_envelope sample_ready sample_access "in1" eq_refl eq_refl)
    as (w' & Hlisten & _ & Hlegacy).
  exists w'. split; [exact Hlisten|]. apply Hlegacy.
Defined.

(** ** The device list *)

Section SortBy.

Variable key : value -> value.

Lemma ascending_total (x y : value) :
  Lodash.ascending x y = false -> Lodash.ascending y x = true.
Proof.
  destruct x, y; cbn; try discriminate; try reflexivity.
  - intros H. apply Z.leb_gt in H. apply Z.leb_le. lia.
  - intros H. destruct (String.leb_total s s0) as [H'|H']; [congruence|exact H'].
Qed.

Lemma insert_perm (x : value) (l : list value) :
  Permutation (Lodash.insert key x l) (x :: l).
Proof.
  induction l as [|y l IH]; cbn [Lodash.insert]; [reflexivity|].
  destruct (Lodash.ascending (key x) (key y)); [reflexivity|].
  rewrite IH. apply perm_swap.
Qed.

Lemma insert_hd (x y : value) (l : list value) :
  ascending_by key y x -> HdRel (ascending_by key) y l ->
  HdRel (ascending_by key) y (Lodash.insert key x l).
Proof.
  intros Hyx Hl. destruct l as [|z l]; cbn [Lodash.insert].
  - constructor. exact Hyx.
  - destruct (Lodash.ascending (key x) (key z)); constructor;
      [exact Hyx | inversion Hl; assumption].
Qed.

Lemma insert_sorted (x : value) (l : list value) :
  Sorted (ascending_by key) l -> Sorted (ascending_by key) (Lodash.insert key x l).
Proof.
  induction 1 as [|y l Hs IH Hhd]; cbn [Lodash.insert].
  - repeat constructor.
  - destruct (Lodash.ascending (key x) (key y)) eqn:Hxy.
    + constructor; [constructor; assumption | constructor; exact Hxy].
    + constructor; [exact IH|].
      apply insert_hd; [apply ascending_total, Hxy | exact Hhd].
Qed.

End SortBy.

Lemma sortBy_perm (l : list value) (name : string) :
  Permutation (Lodash.sortBy l name) l.
Proof.
  unfold Lodash.sortBy. induction l as [|x l IH]; cbn [fold_right]; [reflexivity|].
  rewrite insert_perm, IH. reflexivity.
Qed.

Lemma sortBy_sorted (l : list value) (name : string) :
  Sorted (fun x y => Lodash.ascending (Lodash.property name x)
                       (Lodash.property name y) = true)
         (Lodash.sortBy l name).
Proof.
  unfold Lodash.sortBy. induction l as [|x l IH]; cbn [fold_right]; [constructor|].
  apply insert_sorted, IH.
Qed.

(** A sort is stable: where no element has to come after another, the
    order is kept. *)
Lemma sortBy_sorted_input (l : list value) (name : string) :
  StronglySorted (fun x y => Lodash.ascending (Lodash.property name x)
                               (Lodash.property name y) = true) l ->
  Lodash.sortBy l name = l.
Proof.
  unfold Lodash.sortBy. induction 1 as [|x l Hs IH Hall]; cbn [fold_right]; [reflexivity|].
  rewrite IH. destruct l as [|y l]; cbn [Lodash.insert]; [reflexivity|].
  inversion Hall as [|? ? Hxy _]; subst. rewrite Hxy. reflexivity.
Qed.

Lemma value_ind_nested (P : value -> Prop) :
  P VUndefined -> P VNull -> (forall b, P (VBool b)) -> (forall n, P (VNum n)) ->
  (forall s, P (VStr s)) ->
  (forall a items, Forall P items -> P (VArr a items)) ->
  (forall a fields, Forall (fun kv => P (snd kv)) fields -> P (VObj a fields)) ->
  forall v, P v.
Proof.
  intros HU HN HB HZ HS HA HO. fix IH 1. intros [| |b|n|s|a items|a fields].
  - exact HU.
  - exact HN.
  - apply HB.
  - apply HZ.
  - apply HS.
  - apply HA. induction items as [|x items IHitems]; constructor; [apply IH | exact IHitems].
  - apply HO. induction fields as [|[k x] fields IHfields]; constructor;
      [apply IH | exact IHfields].
Qed.

(** [deepEqual] compares by value: it holds exactly of two values that
    are the same once their addresses are forgotten. *)
Lemma deepEqual_shape (a b : value) :
  DeepEqual.deepEqual a b = true <-> shape_of a = shape_of b.
Proof.
  revert b. induction a as [| |x|x|x|i items IH|i fields IH] using value_ind_nested;
    intros [| |y|y|y|j ys|j gs]; cbn [DeepEqual.deepEqual shape_of];
    try (split; [discriminate | intros [=]]); try (split; reflexivity).
  - rewrite Bool.eqb_true_iff. split; [intros ->; reflexivity | intros [=]; assumption].
  - rewrite Z.eqb_eq. split; [intros ->; reflexivity | intros [=]; assumption].
  - rewrite String.eqb_eq. split; [intros ->; reflexivity | intros [=]; assumption].
  - revert ys. induction IH as [|x items Hx _ IHitems]; intros [|y ys]; cbn [map];
      try (split; [discriminate | intros [=]]); try (split; reflexivity).
    rewrite andb_true_iff, Hx, IHitems.
    split; [intros [-> [=]]; congruence | intros [=]; split; congruence].
  - revert gs. induction IH as [|[k x] fields Hx _ IHfields]; intros [|[l y] gs];
      cbn [map fst snd];
      try (split; [discriminate | intros [=]]); try (split; reflexivity).
    cbn [snd] in Hx.
    rewrite !andb_true_iff, String.eqb_eq, Hx, IHfields.
    split; [intros [[-> ->] [=]]; congruence | intros [=]; repeat split; congruence].
Qed.

Lemma descriptors_ports (base : addr) (m : MIDIAccess) :
  Forall2 (fun o p => exists a, o = descriptor a p)
    (descriptors base m) (map_values (inputs m) ++ map_values (outputs m)).
Proof.
  unfold descriptors. generalize (map_values (inputs m) ++ map_values (outputs m)).
  intros ports. revert base. induction ports as [|p ports IH]; intros base; cbn [imap].
  - constructor.
  - constructor; [eexists; reflexivity|].
    rewrite (imap_ext _ (fun i device => descriptor (S base + i) device)).
    + apply IH.
    + intros i x _. cbn. f_equal. lia.
Qed.

Lemma Sorted_ids (idf : value -> string) (l : list value) :
  Forall (fun x => Lodash.property "id" x = VStr (idf x)) l ->
  Sorted (fun x y => Lodash.ascending (Lodash.property "id" x)
                       (Lodash.property "id" y) = true) l ->
  Sorted (fun a b => String.leb a b = true) (map idf l).
Proof.
  intros Hall Hs. induction Hs as [|x l Hs IH Hhd]; cbn [map]; [constructor|].
  inversion Hall as [|? ? Hx Hl]; subst.
  constructor; [apply IH, Hl|].
  destruct Hhd as [|y l Hxy]; cbn [map]; constructor.
  inversion Hl as [|? ? Hy _]; subst.
  rewrite Hx, Hy in Hxy. exact Hxy.
Qed.

(** C7: a device snapshot builds one descriptor
    [{id, manufacturer, name, type, version, state, connection}] for each
    input and then each output, sorts them so that their ids ascend in the
    order of strings, and compares the sorted list with [devices] of the
    state by value: when the two have the same shape nothing is dispatched,
    and when they have not, RECEIVE_DEVICE_LIST is dispatched with the sorted
    list, a new array. *)
Theorem sendDeviceList_snapshot (stateKey : string) (dispatch : action -> M action)
    (w : world) (m : MIDIAccess) (state : coreState) :
  midiAccess w = Granted m ->
  root w !! stateKey = Some state ->
  let ports := map_values (inputs m) ++ map_values (outputs m) in
  exists (objects sorted : list value) (ids : list string) (a : addr),
    Forall2 (fun o p =>
               exists i,
                 o = VObj i [ ("id", VStr (port_id p));
                              ("manufacturer", port_manufacturer p);
                              ("name", port_name p);
                              ("type", port_type p);
                              ("version", port_version p);
                              ("state", port_state p);
                              ("connection", port_connection p) ])
            objects ports /\
    sorted = Lodash.sortBy objects "id" /\
    Permutation sorted objects /\
    map (Lodash.property "id") sorted = map VStr ids /\
    Sorted (fun x y => String.leb x y = true) ids /\
    Permutation ids (map port_id ports) /\
    next_addr w <= a /\
    (shape_of (VArr a sorted) = shape_of (devices state) ->
     sendDeviceList stateKey dispatch w = (Ok tt, set_next_addr (S a) w)) /\
    (shape_of (VArr a sorted) <> shape_of (devices state) ->
     sendDeviceList stateKey dispatch w =
       (dispatch (receiveDeviceList (VArr a sorted));;; ret tt) (set_next_addr (S a) w)).
Proof.
  intros Hc Hroot ports.
  set (objects := descriptors (next_addr w) m).
  set (sorted := Lodash.sortBy objects "id").
  set (idf := fun v => match Lodash.property "id" v with VStr s => s | _ => "" end).
  pose proof (descriptors_ports (next_addr w) m) as Hobjects. fold objects ports in Hobjects.
  pose proof (sortBy_perm objects "id") as Hperm. fold sorted in Hperm.
  assert (Hids : forall l, Forall (fun o => exists i p, o = descriptor i p) l ->
                 Forall (fun x => Lodash.property "id" x = VStr (idf x)) l).
  { intros l. apply List.Forall_impl. intros o (i & p & ->). reflexivity. }
  assert (Hdesc : Forall (fun o => exists i p, o = descriptor i p) objects).
  { clear -Hobjects. induction Hobjects as [|o p os ps [i ->] _ IH]; constructor;
      [eauto | exact IH]. }
  assert (Hdesc' : Forall (fun o => exists i p, o = descriptor i p) sorted).
  { rewrite List.Forall_forall in *. intros o Ho. apply Hdesc.
    apply (Permutation_in _ Hperm Ho). }
  exists objects, sorted, (map idf sorted), (next_addr w + length objects).
  repeat apply conj.
  - exact Hobjects.
  - reflexivity.
  - exact Hperm.
  - rewrite map_map. apply map_ext_Forall, Hids, Hdesc'.
  - apply Sorted_ids; [apply Hids, Hdesc' | apply sortBy_sorted].
  - rewrite (Permutation_map idf Hperm).
    replace (map idf objects) with (map port_id ports); [reflexivity|].
    clear -Hobjects. induction Hobjects as [|o p os ps [i ->] _ IH]; cbn [map];
      [reflexivity | rewrite IH; reflexivity].
  - lia.
  - intros Hsame. apply deepEqual_shape in Hsame.
    unfold sendDeviceList, getSlice, bind, gets, modify. rewrite Hc.
    cbn [root set_next_addr]. rewrite Hroot. cbn [member]. unfold ret.
    fold objects. fold sorted. rewrite Hsame. reflexivity.
  - intros Hdiff.
    assert (Hneq : DeepEqual.deepEqual (VArr (next_addr w + length objects) sorted)
                     (devices state) = false).
    { apply not_true_iff_false. rewrite deepEqual_shape. exact Hdiff. }
    unfold sendDeviceList, getSlice, bind, gets, modify. rewrite Hc.
    cbn [root set_next_addr]. rewrite Hroot. cbn [member]. unfold ret.
    fold objects. fold sorted. rewrite Hneq. reflexivity.
Qed.

Lemma sendDeviceList_snapshot_witness :
  midiAccess sample_ready = Granted sample_access /\
  root sample_ready !! "midi" = Some initialState /\
  exists (sorted : list value) (ids : list string) (a : addr),
    Forall (fun o =>
              exists i id type,
                o = VObj i [ ("id", VStr id); ("manufacturer", VStr "ACME");
                             ("name", VStr id); ("type", VStr type);
                             ("version", VStr "1.0"); ("state", VStr "connected");
                             ("connection", VStr "closed") ]) sorted /\
    map (Lodash.property "id") sorted = map VStr ids /\
    Sorted (fun x y => String.leb x y = true) ids /\
    Permutation ids ["in1"; "out1"; "out2"] /\
    sendDeviceList "midi" (storeNext "midi") sample_ready =
      (storeNext "midi" (receiveDeviceList (VArr a sorted));;; ret tt)
        (set_next_addr (S a) sample_ready).
Proof.
  split; [reflexivity|]. split; [reflexivity|].
  destruct (sendDeviceList_snapshot "midi" (storeNext "midi") sample_ready sample_access
              initialState eq_refl eq_refl)
    as (objects & sorted & ids & a & Hobjects & _ & Hp & Hids & Hsorted & Hperm & _ & _ & Hsend).
  exists sorted, ids, a. repeat apply conj; try assumption.
  { apply List.Forall_forall. intros o Ho. apply (Permutation_in _ Hp) in Ho.
    clear -Hobjects Ho. cbn in Hobjects.
    repeat match goal with
           | H : Forall2 _ _ (_ :: _) |- _ => inversion H; subst; clear H
           | H : Forall2 _ _ [] |- _ => inversion H; subst; clear H
           end.
    repeat match goal with
           | H : In _ (_ :: _) |- _ => destruct H as [<-|H]
           | H : In _ [] |- _ => destruct H
           | H : exists i, _ = _ |- _ => destruct H as [? ->]
           end; eexists _, _, _; reflexivity. }
  apply Hsend. cbn [shape_of initialState devices map].
  destruct sorted as [|x sorted]; [|discriminate].
  destruct ids as [|i ids]; [|discriminate Hids].
  apply Permutation_nil in Hperm. discriminate Hperm.
Defined.

(** ** [setup] *)

(** C10: [setup()] throws, its parameter being destructured from
    [undefined]; [setup({})] does not, and gives [stateKey] and
    [requestMIDIAccess] their defaults and no [midiOptions]; no object
    makes it throw, whichever of the three properties it has. *)
Theorem setup_needs_an_argument :
  (exists msg, setup VUndefined = Throw (TypeError msg)) /\
  (forall a,
     setup (VObj a []) =
       Ok {| cfg_midiOptions := VUndefined; cfg_stateKey := VStr "midi";
             cfg_requestMIDIAccess := DefaultRequestMIDIAccess |}) /\
  (forall a fields, exists c, setup (VObj a fields) = Ok c).
Proof.
  repeat apply conj.
  - eexists. reflexivity.
  - reflexivity.
  - intros a fields. eexists. reflexivity.
Qed.

(** ** [observeStore] *)

Lemma changes_of_app (l : list value) (last n : value) :
  changes_of last (l ++ [n]) =
    changes_of last l ++
    (if strict_neq n (held l last) then [(n, held l last)] else []).
Proof.
  revert last. induction l as [|s l IH]; intros last; cbn.
  - destruct (strict_neq n last); reflexivity.
  - destruct (strict_neq s last); cbn; rewrite IH; reflexivity.
Qed.

Lemma held_app (l : list value) (last n : value) :
  held (l ++ [n]) last = if strict_neq n (held l last) then n else held l last.
Proof. unfold held. rewrite fold_left_app. reflexivity. Qed.

Section ObserveStoreFacts.

Variables E S U : Type.
Variable getState : E -> S.
Variable subscribe : (E * observer -> E * observer) -> E -> U * E.
Variable select : S -> value.
Variable onChange : value -> value -> E -> E.

Lemma handleChange_consistent (e : E) (o : observer) :
  consistent o ->
  consistent (snd (handleChange E S getState select onChange (e, o))) /\
  length (seen (snd (handleChange E S getState select onChange (e, o)))) =
    Datatypes.S (length (seen o)).
Proof.
  intros [Hcur Hch]. unfold consistent, handleChange.
  destruct (strict_neq (select (getState e)) (currentState o)) eqn:Hneq;
    cbn [snd currentState seen changes];
    rewrite changes_of_app, held_app, <- Hcur, Hneq, <- Hch, length_app;
    cbn [length]; repeat split; try lia.
  symmetry. apply app_nil_r.
Qed.

Lemma notifications_consistent (steps : list (E -> E)) (w : E * observer) :
  consistent (snd w) ->
  consistent (snd (notifications E S getState select onChange steps w)) /\
  length (seen (snd (notifications E S getState select onChange steps w))) =
    length steps + length (seen (snd w)).
Proof.
  revert w. induction steps as [|step steps IH]; intros [e o] Ho; cbn [notifications fold_left].
  - split; [exact Ho | reflexivity].
  - cbn [fst snd] in *. destruct (handleChange_consistent (step e) o Ho) as [Hc Hlen].
    destruct (IH (handleChange E S getState select onChange (step e, o)) Hc) as [Hc' Hlen'].
    unfold notifications in Hc', Hlen'.
    split; [exact Hc'|]. rewrite Hlen', Hlen. cbn. lia.
Qed.

End ObserveStoreFacts.

(** C9: [observeStore] subscribes its [handleChange] to the store, runs it
    once before returning, and returns what [subscribe] returned.  Each run
    of [handleChange], that one and one per notification, computes
    [select(getState())]; it calls [onChange(next, prev)] and keeps [next]
    exactly when [next] is not identical to the selection it holds, which
    for arrays and objects is a matter of address, not of contents.  So
    after any run the [onChange] calls made are those of the selections
    seen, one per change of identity, the first against [undefined]. *)
Theorem observeStore_calls_onChange_on_new_identity
    (E St U : Type) (getState : E -> St)
    (subscribe : (E * observer -> E * observer) -> E -> U * E)
    (select : St -> value) (onChange : value -> value -> E -> E) :
  let handle := handleChange E St getState select onChange in
  (forall e,
     observeStore E St U getState subscribe select onChange e =
       (fst (subscribe handle e),
        handle (snd (subscribe handle e),
                {| currentState := VUndefined; seen := []; changes := [] |}))) /\
  (forall e o,
     let next := select (getState e) in
     (strict_eq next (currentState o) = false ->
      handle (e, o) =
        (onChange next (currentState o) e,
         {| currentState := next; seen := seen o ++ [next];
            changes := changes o ++ [(next, currentState o)] |})) /\
     (strict_eq next (currentState o) = true ->
      handle (e, o) =
        (e, {| currentState := currentState o; seen := seen o ++ [next];
               changes := changes o |}))) /\
  (forall e o a b xs ys,
     select (getState e) = VArr a xs -> currentState o = VArr b ys ->
     (a <> b -> changes (snd (handle (e, o))) = changes o ++ [(VArr a xs, VArr b ys)]) /\
     (a = b -> changes (snd (handle (e, o))) = changes o)) /\
  (forall e steps,
     let o := snd (notifications E St getState select onChange steps
                     (snd (observeStore E St U getState subscribe select onChange e))) in
     length (seen o) = 1 + length steps /\
     changes o = changes_of VUndefined (seen o) /\
     currentState o = held (seen o) VUndefined).
Proof.
  intros handle. repeat apply conj.
  - intros e. unfold observeStore. fold handle.
    destruct (subscribe handle e) as [u e']. reflexivity.
  - intros e o next. subst handle. unfold handleChange, strict_neq. fold next.
    split; intros ->; reflexivity.
  - intros e o a b xs ys Hsel Hcur. subst handle. unfold handleChange, strict_neq.
    rewrite Hsel, Hcur. cbn [strict_eq].
    split; intros Hab.
    + apply Nat.eqb_neq in Hab. rewrite Hab. reflexivity.
    + apply Nat.eqb_eq in Hab. rewrite Hab. reflexivity.
  - intros e steps o.
    assert (H0 : consistent {| currentState := VUndefined; seen := []; changes := [] |})
      by (split; reflexivity).
    assert (Hfirst :
      snd (observeStore E St U getState subscribe select onChange e) =
        handle (snd (subscribe handle e),
                {| currentState := VUndefined; seen := []; changes := [] |})).
    { unfold observeStore. fold handle. destruct (subscribe handle e); reflexivity. }
    destruct (handleChange_consistent E St getState select onChange
                (snd (subscribe handle e)) _ H0) as [H1 Hlen1].
    fold handle in H1, Hlen1. rewrite <- Hfirst in H1, Hlen1.
    destruct (notifications_consistent E St getState select onChange steps _ H1)
      as [[Hcur Hch] Hlen].
    fold o in Hcur, Hch, Hlen.
    repeat apply conj; [|exact Hch|exact Hcur].
    rewrite Hlen, Hlen1. cbn. lia.
Qed.

Lemma observeStore_calls_onChange_on_new_identity_witness :
  let run := notifications value value (fun e => e) (fun s => s) (fun _ _ e => e)
               [ (fun _ => VArr 1 [VNum 1]); (fun _ => VArr 1 [VNum 1]);
                 (fun _ => VArr 2 [VNum 1]) ]
               (snd (observeStore value value unit (fun e => e)
                       (fun _ e => (tt, e)) (fun s => s) (fun _ _ e => e) VUndefined)) in
  length (seen (snd run)) = 4 /\
  changes (snd run) =
    [ (VArr 1 [VNum 1], VUndefined); (VArr 2 [VNum 1], VArr 1 [VNum 1]) ].
Proof.
  cbv zeta.
  destruct (observeStore_calls_onChange_on_new_identity value value unit (fun e => e)
              (fun _ e => (tt, e)) (fun s => s) (fun _ _ e => e))
    as (_ & _ & _ & Hrun).
  destruct (Hrun VUndefined
              [ (fun _ => VArr 1 [VNum 1]); (fun _ => VArr 1 [VNum 1]);
                (fun _ => VArr 2 [VNum 1]) ]) as (Hlen & Hch & _).
  split; [exact Hlen|]. rewrite Hch. reflexivity.
Defined.

(** ** The sample store, run *)

(** A send dispatched while the request is in flight: nothing is sent
    until the host grants the request and the queued callbacks have run;
    then the message has been sent once, to "out1", and the device list is
    in the store. *)
Example deferred_send_runs_once :
  let dispatch := storeDispatch VUndefined "midi" in
  let w1 := snd (dispatch (sendMidiMessage note_on) sample_pending) in
  let w2 := resolve 0 sample_access w1 in
  let w3 := run_job "midi" dispatch (run_job "midi" dispatch (run_job "midi" dispatch w2)) in
  sent w1 = [] /\
  jobs w2 = [Bootstrap; Send (VNum 5) (VArr 101 [VNum 144; VNum 60; VNum 127]) (VStr "out1")] /\
  sent w3 = [{| to := sample_port "out1" "output";
                sent_data := VArr 101 [VNum 144; VNum 60; VNum 127];
                sent_timestamp := VNum 5 |}] /\
  jobs w3 = [] /\
  (Lodash.property "id" <$>
     match devices <$> root w3 !! "midi" with Some (VArr _ l) => l | _ => [] end) =
    [VStr "in1"; VStr "out1"; VStr "out2"].
Proof. cbv zeta. repeat apply conj; reflexivity. Qed.

(** Listening to a known input and to an unknown id installs one callback;
    listening to something else afterwards removes it. *)
Example listen_then_unlisten :
  let dispatch := storeDispatch VUndefined "midi" in
  let w1 := snd (dispatch (setListeningDevices (VArr 40 [VStr "in1"; VStr "zz"])) sample_ready) in
  let w2 := snd (dispatch (setListeningDevices (VArr 41 [VStr "zz"])) w1) in
  let callback w :=
    match midiAccess w with
    | Granted m => onmidimessage <$> map_get (inputs m) (VStr "in1")
    | _ => None
    end in
  callback sample_ready = Some None /\
  callback w1 = Some (Some (Listener (VStr "in1"))) /\
  callback w2 = Some None.
Proof. cbv zeta. repeat apply conj; reflexivity. Qed.

(** Sorting is by id, and stable. *)
Example sortBy_ids :
  Lodash.sortBy
    [ VObj 1 [("id", VStr "b"); ("name", VStr "first")];
      VObj 2 [("id", VStr "a")];
      VObj 3 [("id", VStr "b"); ("name", VStr "second")];
      VObj 4 [("id", VStr "B")] ] "id" =
    [ VObj 4 [("id", VStr "B")];
      VObj 2 [("id", VStr "a")];
      VObj 1 [("id", VStr "b"); ("name", VStr "first")];
      VObj 3 [("id", VStr "b"); ("name", VStr "second")] ].
Proof. reflexivity. Qed.

(* ================================================================== *)
(** * Further properties *)

(** ** The reducers *)

(** X1: reducing the same action twice gives what reducing it once gives,
    and two actions of different kinds can be reduced in either order. *)
Theorem reducer_idempotent_and_commutes :
  (forall st a, reducer (Some (reducer (Some st) a)) a = reducer (Some st) a) /\
  (forall st a b, type a <> type b ->
     reducer (Some (reducer (Some st) a)) b = reducer (Some (reducer (Some st) b)) a).
Proof.
  split.
  - intros st a. rewrite !reducer_eq. cbn [default]. cbv zeta.
    destruct (String.eqb (type a) RECEIVE_DEVICE_LIST); [reflexivity|].
    destruct (String.eqb (type a) SET_LISTENING_DEVICES); reflexivity.
  - intros st a b Hab. rewrite !reducer_eq. cbn [default]. cbv zeta.
    destruct (String.eqb_spec (type a) RECEIVE_DEVICE_LIST) as [Ha|Ha];
      destruct (String.eqb_spec (type b) RECEIVE_DEVICE_LIST) as [Hb|Hb];
      try (exfalso; apply Hab; congruence);
      destruct (String.eqb_spec (type a) SET_LISTENING_DEVICES) as [Ha'|Ha'];
      destruct (String.eqb_spec (type b) SET_LISTENING_DEVICES) as [Hb'|Hb'];
      try (exfalso; apply Hab; congruence); reflexivity.
Qed.

Lemma reducer_idempotent_and_commutes_witness :
  let a := setListeningDevices (VArr 40 [VStr "in1"]) in
  let b := receiveDeviceList reconnect_list in
  type a <> type b /\
  reducer (Some (reducer (Some initialState) a)) b =
    reducer (Some (reducer (Some initialState) b)) a.
Proof.
  cbv zeta. split; [discriminate|].
  apply (proj2 reducer_idempotent_and_commutes). discriminate.
Defined.

Lemma root_after_snoc (actions : list action) (a : action) :
  root_after (actions ++ [a]) = rootReducer (Some (root_after actions)) a.
Proof. unfold root_after. rewrite fold_left_app. reflexivity. Qed.

(** X2: in the example store the messages received are kept newest
    first: after any sequence of actions [midiMessages] holds the payloads
    of its RECEIVE_MIDI_MESSAGE actions in reverse order, and [midi] is
    what the reducer of the package makes of the same actions, so that
    neither slice is touched by the actions of the other. *)
Theorem example_store_slices (actions : list action) :
  midiMessages (root_after actions) =
    rev (map payload
           (List.filter (fun a => String.eqb (type a) RECEIVE_MIDI_MESSAGE) actions)) /\
  midi (root_after actions) = reduce_all initialState actions /\
  midi (root_after actions) =
    reduce_all initialState
      (List.filter (fun a => negb (String.eqb (type a) RECEIVE_MIDI_MESSAGE)) actions).
Proof.
  induction actions as [|a actions IH] using rev_ind.
  - repeat apply conj; reflexivity.
  - destruct IH as (IHm & IHs & IHf).
    rewrite root_after_snoc. unfold rootReducer. cbn [midi midiMessages fmap option_fmap option_map].
    rewrite !List.filter_app. cbn [List.filter].
    unfold reduce_all in *. rewrite !fold_left_app, <- IHs.
    repeat apply conj.
    + unfold midiMessagesReducer. cbn [default]. rewrite IHm.
      destruct (String.eqb (type a) RECEIVE_MIDI_MESSAGE).
      * cbn [map]. rewrite map_app, rev_app_distr. reflexivity.
      * rewrite app_nil_r. reflexivity.
    + reflexivity.
    + destruct (String.eqb (type a) RECEIVE_MIDI_MESSAGE) eqn:Hk; cbn [negb fold_left].
      * rewrite <- IHf, IHs. rewrite reducer_eq. cbn [default]. cbv zeta.
        apply String.eqb_eq in Hk. rewrite Hk. reflexivity.
      * rewrite <- IHf, IHs. reflexivity.
Qed.

(** ** The callbacks of the inputs *)

Lemma set_midiAccess_id (w : world) (c : cell) :
  midiAccess w = c -> set_midiAccess c w = w.
Proof. destruct w; cbn. intros ->. reflexivity. Qed.

Lemma set_onmidimessage_keys (s : string) (cb : option listener) (ins : portMap) :
  map fst (set_onmidimessage s cb ins) = map fst ins.
Proof.
  induction ins as [|[k p] ins IH]; cbn; [reflexivity|].
  destruct (String.eqb k s); cbn; [reflexivity | rewrite IH; reflexivity].
Qed.

Lemma map_has_keys (ins ins' : portMap) (key : value) :
  map fst ins' = map fst ins -> map_has ins' key = map_has ins key.
Proof.
  destruct key; cbn; try reflexivity.
  revert ins'. induction ins as [|[k p] ins IH]; intros [|[k' p'] ins']; cbn;
    try discriminate; try reflexivity.
  intros [= -> Hrest]. rewrite (IH _ Hrest). reflexivity.
Qed.

Lemma map_get_set_other (ins : portMap) (s k : string) (cb : option listener) :
  String.eqb k s = false ->
  map_get (set_onmidimessage s cb ins) (VStr k) = map_get ins (VStr k).
Proof.
  intros Hks. cbn. induction ins as [|[k' p] ins IH]; cbn; [reflexivity|].
  destruct (String.eqb k' s) eqn:Hk's; cbn.
  - apply String.eqb_eq in Hk's. subst k'. rewrite String.eqb_sym, Hks. reflexivity.
  - destruct (String.eqb k' k); [reflexivity | exact IH].
Qed.

Lemma port_listens_set (m : MIDIAccess) (s k : string) (cb : option listener) :
  map_has (inputs m) (VStr s) = true ->
  port_listens {| inputs := set_onmidimessage s cb (inputs m); outputs := outputs m;
                  onstatechange := onstatechange m |} k =
    if String.eqb k s then installed cb else port_listens m k.
Proof.
  intros Hhas. unfold port_listens. cbn [inputs].
  destruct (String.eqb k s) eqn:Hks.
  - apply String.eqb_eq in Hks. subst k.
    pose proof (map_get_set_onmidimessage (inputs m) s cb Hhas) as Hget.
    destruct (map_get _ (VStr s)) as [p|]; [|discriminate Hget].
    cbn in Hget. injection Hget as ->. reflexivity.
  - rewrite (map_get_set_other _ _ _ _ Hks). reflexivity.
Qed.

Lemma port_listens_unknown (m : MIDIAccess) (k : string) :
  map_has (inputs m) (VStr k) = false -> port_listens m k = false.
Proof.
  intros Hhas. unfold port_listens.
  destruct (map_get (inputs m) (VStr k)) as [p|] eqn:Hget; [|reflexivity].
  rewrite (map_get_has _ _ _ Hget) in Hhas. discriminate.
Qed.

Lemma callbacks_ok_set (ins : portMap) (s : string) (cb : option listener) :
  (forall d, cb = Some (Listener d) -> d = VStr s) ->
  callbacks_ok ins -> callbacks_ok (set_onmidimessage s cb ins).
Proof.
  intros Hcb. unfold callbacks_ok. induction 1 as [|[k p] ins Hp Hins IH]; cbn; [constructor|].
  destruct (String.eqb_spec k s) as [->|Hks]; constructor; try assumption;
    try (cbn; exact Hcb).
Qed.

Lemma assign_if_known_granted (cb : value -> option listener) (w : world)
    (m : MIDIAccess) (s : string) :
  midiAccess w = Granted m ->
  assign_if_known cb (VStr s) w =
    (Ok tt,
     if map_has (inputs m) (VStr s) then
       set_midiAccess (Granted
         {| inputs := set_onmidimessage s (cb (VStr s)) (inputs m);
            outputs := outputs m; onstatechange := onstatechange m |}) w
     else w).
Proof.
  intros Hc. unfold assign_if_known. unfold bind at 1.
  rewrite (inputs_has_granted _ _ _ Hc).
  destruct (map_has (inputs m) (VStr s)) eqn:Hh; [|reflexivity].
  unfold assign_onmidimessage, bind, gets, modify. rewrite Hc.
  destruct (map_has_get _ _ Hh) as [port ->]. reflexivity.
Qed.

(** One loop of the handler over a list of ids, with the access object
    ready: it ends, changes the callbacks of the inputs and nothing else,
    and gives each known id of the list the callback made for it. *)
Lemma forEach_assign (cb : value -> option listener) (ids : list string) :
  forall (w : world) (m : MIDIAccess),
  midiAccess w = Granted m ->
  exists m',
    forEach (assign_if_known cb) (map VStr ids) w = (Ok tt, set_midiAccess (Granted m') w) /\
    outputs m' = outputs m /\
    onstatechange m' = onstatechange m /\
    map fst (inputs m') = map fst (inputs m) /\
    (forall k, port_listens m' k =
               if mem k ids && map_has (inputs m) (VStr k) then installed (cb (VStr k))
               else port_listens m k) /\
    ((forall s d, cb (VStr s) = Some (Listener d) -> d = VStr s) ->
     callbacks_ok (inputs m) -> callbacks_ok (inputs m')).
Proof.
  induction ids as [|s ids IH]; intros w m Hc; cbn [map forEach].
  - exists m. rewrite (set_midiAccess_id _ _ Hc). repeat apply conj; try reflexivity.
    intros _ H. exact H.
  - unfold bind at 1. rewrite (assign_if_known_granted _ _ _ _ Hc).
    destruct (map_has (inputs m) (VStr s)) eqn:Hh.
    + edestruct (IH (set_midiAccess (Granted
                   {| inputs := set_onmidimessage s (cb (VStr s)) (inputs m);
                      outputs := outputs m; onstatechange := onstatechange m |}) w))
        as (m' & Hrun & Hout & Hsc & Hkeys & Hl & Hok); [reflexivity|].
      exists m'. cbn [inputs outputs onstatechange] in *.
      rewrite set_onmidimessage_keys in Hkeys.
      repeat apply conj; try assumption.
      * intros k. rewrite Hl, (port_listens_set _ _ _ _ Hh).
        rewrite (map_has_keys _ _ _ (set_onmidimessage_keys _ _ _)).
        unfold mem. cbn [existsb].
        destruct (String.eqb_spec k s) as [->|Hks]; cbn [orb].
        -- rewrite Hh. cbn [andb]. destruct (existsb _ ids); reflexivity.
        -- reflexivity.
      * intros Hcb Hm. apply Hok; [exact Hcb|].
        apply callbacks_ok_set; [apply Hcb | exact Hm].
    + destruct (IH w m Hc) as (m' & Hrun & Hout & Hsc & Hkeys & Hl & Hok).
      exists m'. repeat apply conj; try assumption.
      intros k. rewrite Hl. unfold mem. cbn [existsb].
      destruct (String.eqb_spec k s) as [->|Hks]; cbn [orb]; [|reflexivity].
      rewrite Hh, andb_false_r. cbn [andb]. reflexivity.
Qed.

Lemma set_has_mem (l : list string) (k : string) :
  set_has (map VStr l) (VStr k) = mem k l.
Proof.
  unfold set_has, mem. induction l as [|s l IH]; cbn; [reflexivity|].
  rewrite IH. reflexivity.
Qed.

Lemma filter_strings (f : value -> bool) (l : list string) :
  List.filter f (map VStr l) = map VStr (List.filter (fun k => f (VStr k)) l).
Proof.
  induction l as [|s l IH]; cbn; [reflexivity|].
  destruct (f (VStr s)); cbn; rewrite IH; reflexivity.
Qed.

Lemma mem_filter (f : string -> bool) (l : list string) (k : string) :
  mem k (List.filter f l) = mem k l && f k.
Proof.
  unfold mem. induction l as [|s l IH]; cbn; [reflexivity|].
  destruct (f s) eqn:Hf; cbn; rewrite IH.
  - destruct (String.eqb_spec k s) as [->|_]; cbn; [rewrite Hf|]; reflexivity.
  - destruct (String.eqb_spec k s) as [->|_]; cbn; [rewrite Hf, andb_false_r|]; reflexivity.
Qed.

(** X3: a dispatch that replaces [listeningDevices] and leaves [devices]
    alone, with the access object ready, returns the action and changes
    nothing but the callbacks of the inputs: an id that was added has a
    callback exactly if it is a key of the inputs, an id that was removed
    has none, every other input keeps what it had.  So if before the
    dispatch the inputs with a callback were the known ids of the previous
    list, after it they are the known ids of the new list. *)
Theorem inputHandler_reconciles (stateKey : string) (next : action -> M action)
    (a a' : action) (w0 w : world) (m : MIDIAccess) (state : coreState)
    (aP aN : addr) (prevL nextL : list string) :
  let prevState := default initialState (root w0 !! stateKey) in
  next a w0 = (Ok a', w) ->
  root w !! stateKey = Some state ->
  midiAccess w = Granted m ->
  listeningDevices prevState = VArr aP (map VStr prevL) ->
  listeningDevices state = VArr aN (map VStr nextL) ->
  strict_neq (devices state) (devices prevState) = false ->
  exists m',
    inputHandler stateKey next a w0 = (Ok a', set_midiAccess (Granted m') w) /\
    outputs m' = outputs m /\
    onstatechange m' = onstatechange m /\
    map fst (inputs m') = map fst (inputs m) /\
    (aN <> aP ->
     (forall k, port_listens m' k =
        if mem k nextL && negb (mem k prevL) then map_has (inputs m) (VStr k)
        else if mem k prevL && negb (mem k nextL) then false
        else port_listens m k) /\
     ((forall k, port_listens m k = mem k prevL && map_has (inputs m) (VStr k)) ->
      forall k, port_listens m' k = mem k nextL && map_has (inputs m) (VStr k))) /\
    (aN = aP -> m' = m).
Proof.
  intros prevState Hnext Hstate Hc HP HN HD.
  pose proof (diff_granted w m prevState state aP aN prevL nextL [] [] HP HN) as Hdiff.
  rewrite HD in Hdiff. specialize (Hdiff (fun H => False_ind _ (Bool.diff_false_true H))).
  rewrite app_nil_r in Hdiff.
  rewrite (inputHandler_after_next _ _ _ _ _ _ Hnext), Hstate. fold prevState.
  unfold bind at 1. rewrite Hdiff.
  rewrite HP, HN. unfold strict_neq, strict_eq.
  destruct (Nat.eqb_spec aN aP) as [Heq|Hne]; cbn [negb].
  - exists m. cbn [forEach]. unfold bind, ret.
    rewrite (set_midiAccess_id _ _ Hc).
    repeat apply conj; try reflexivity; try (intros Hx; contradiction).
  - rewrite !filter_strings.
    change (forEach unlisten) with (forEach (assign_if_known (fun _ => None))).
    change (forEach listen) with (forEach (assign_if_known (fun d => Some (Listener d)))).
    destruct (forEach_assign (fun _ => None)
                (List.filter (fun k => negb (set_has (map VStr nextL) (VStr k))) prevL) w m Hc)
      as (m1 & Hrun1 & Hout1 & Hsc1 & Hkeys1 & Hl1 & _).
    destruct (forEach_assign (fun d => Some (Listener d))
                (List.filter (fun k => negb (set_has (map VStr prevL) (VStr k))) nextL)
                (set_midiAccess (Granted m1) w) m1 eq_refl)
      as (m' & Hrun2 & Hout2 & Hsc2 & Hkeys2 & Hl2 & _).
    exists m'. split.
    { unfold bind at 1. rewrite Hrun1. unfold bind at 1. rewrite Hrun2. reflexivity. }
    assert (Hl : forall k, port_listens m' k =
              if mem k nextL && negb (mem k prevL) then map_has (inputs m) (VStr k)
              else if mem k prevL && negb (mem k nextL) then false
              else port_listens m k).
    { intros k. rewrite Hl2, Hl1, !mem_filter, !set_has_mem.
      rewrite (map_has_keys _ _ _ Hkeys1). cbn [installed].
      destruct (map_has (inputs m) (VStr k)) eqn:Hh.
      - destruct (mem k nextL), (mem k prevL); reflexivity.
      - rewrite (port_listens_unknown _ _ Hh).
        destruct (mem k nextL), (mem k prevL); reflexivity. }
    repeat apply conj; try congruence.
    intros _. split; [exact Hl|].
      intros Hsync k. rewrite Hl, Hsync.
      destruct (mem k nextL), (mem k prevL), (map_has (inputs m) (VStr k)); reflexivity.
Qed.

Lemma inputHandler_reconciles_witness :
  let a := setListeningDevices (VArr 40 [VStr "in1"; VStr "zz"]) in
  let w := snd (storeNext "midi" a sample_ready) in
  storeNext "midi" a sample_ready = (Ok a, w) /\
  midiAccess w = Granted sample_access /\
  exists m',
    inputHandler "midi" (storeNext "midi") a sample_ready =
      (Ok a, set_midiAccess (Granted m') w) /\
    port_listens m' "in1" = true /\
    port_listens m' "zz" = false.
Proof.
  cbv zeta. split; [reflexivity|]. split; [reflexivity|].
  destruct (inputHandler_reconciles "midi" (storeNext "midi")
              (setListeningDevices (VArr 40 [VStr "in1"; VStr "zz"]))
              (setListeningDevices (VArr 40 [VStr "in1"; VStr "zz"]))
              sample_ready
              (snd (storeNext "midi" (setListeningDevices (VArr 40 [VStr "in1"; VStr "zz"]))
                      sample_ready))
              sample_access
              {| devices := VArr 0 []; listeningDevices := VArr 40 [VStr "in1"; VStr "zz"] |}
              1 40 [] ["in1"; "zz"] eq_refl eq_refl eq_refl eq_refl eq_refl eq_refl)
    as (m' & Hrun & _ & _ & _ & Hne & _).
  exists m'. split; [exact Hrun|].
  destruct (Hne ltac:(discriminate)) as [Hl _].
  split; rewrite Hl; reflexivity.
Defined.

(** ** What every run keeps *)

Lemma preserves_ret (I : world -> Prop) {A} (a : A) : preserves I (ret a).
Proof. intros w H. exact H. Qed.

Lemma preserves_throw (I : world -> Prop) {A} (e : error) : preserves I (@throw A e).
Proof. intros w H. exact H. Qed.

Lemma preserves_lift (I : world -> Prop) {A} (o : outcome A) : preserves I (lift o).
Proof. intros w H. exact H. Qed.

Lemma preserves_gets (I : world -> Prop) {A} (f : world -> A) : preserves I (gets f).
Proof. intros w H. exact H. Qed.

Lemma preserves_modify (I : world -> Prop) (g : world -> world) :
  (forall w, I w -> I (g w)) -> preserves I (modify g).
Proof. intros Hg w H. apply Hg, H. Qed.

Lemma preserves_bind (I : world -> Prop) {A B} (c : M A) (k : A -> M B) :
  preserves I c -> (forall a, preserves I (k a)) -> preserves I (bind c k).
Proof.
  intros Hc Hk w H. unfold bind. specialize (Hc w H).
  destruct (c w) as [[a|e] w']; cbn in *; [apply Hk, Hc | exact Hc].
Qed.

Lemma preserves_forEach (I : world -> Prop) (body : value -> M unit) (xs : list value) :
  (forall x, preserves I (body x)) -> preserves I (forEach body xs).
Proof.
  intros Hb. induction xs as [|x xs IH]; cbn [forEach].
  - apply preserves_ret.
  - apply preserves_bind; [apply Hb | intros _; exact IH].
Qed.

Lemma preserves_filterM (I : world -> Prop) (f : value -> M bool) (xs : list value) :
  (forall x, preserves I (f x)) -> preserves I (filterM f xs).
Proof.
  intros Hf. induction xs as [|x xs IH]; cbn [filterM].
  - apply preserves_ret.
  - apply preserves_bind; [apply Hf|]. intros b.
    apply preserves_bind; [exact IH|]. intros ys. apply preserves_ret.
Qed.

Ltac preserve :=
  repeat first
    [ solve [auto 1]
    | apply preserves_ret
    | apply preserves_throw
    | apply preserves_lift
    | apply preserves_gets
    | apply preserves_forEach; intro
    | apply preserves_filterM; intro
    | apply preserves_bind; [|intro]
    | match goal with
      | |- preserves _ (match ?x with _ => _ end) => destruct x
      end ].

Section Preservation.

Variable I : world -> Prop.
Variable ok : hostEvent -> Prop.
Variable midiOptions : value.
Variable stateKey : string.

(** What [I] does not depend on. *)
Hypothesis I_jobs : forall j w, I w -> I (set_jobs j w).
Hypothesis I_root : forall r w, I w -> I (set_root r w).
Hypothesis I_next_addr : forall n w, I w -> I (set_next_addr n w).

(** The steps that touch what [I] may depend on. *)
Hypothesis I_once : preserves I (requestMIDIAccessOnce midiOptions).
Hypothesis I_then : forall pr k, preserves I (then_ pr k).
Hypothesis I_listen : forall d, preserves I (listen d).
Hypothesis I_unlisten : forall d, preserves I (unlisten d).
Hypothesis I_send : forall t d dev, preserves I (send t d dev).
Hypothesis I_onstatechange : forall w m,
  I w -> midiAccess w = Granted m ->
  I (set_midiAccess (Granted {| inputs := inputs m; outputs := outputs m;
                                onstatechange := Some CallSendDeviceList |}) w).
Hypothesis I_grant : forall p m w, ok (Grant p m) -> I w -> I (resolve p m w).
Hypothesis I_refuse : forall p e w, I w -> I (reject p e w).
Hypothesis I_plug : forall ins outs w, ok (Plug ins outs) -> I w -> I (plug ins outs w).

Lemma preserves_enqueue (k : continuation) : preserves I (enqueue k).
Proof. unfold enqueue. apply preserves_modify. intros w H. apply I_jobs, H. Qed.

Lemma preserves_inputs_has (d : value) : preserves I (inputs_has d).
Proof. unfold inputs_has, access_map. preserve. Qed.

Lemma preserves_diff (prevState : coreState) (state : option coreState) :
  preserves I (diff prevState state).
Proof.
  unfold diff, member. pose proof preserves_inputs_has. preserve.
Qed.

Lemma preserves_inputHandler (next : action -> M action) :
  (forall a, preserves I (next a)) -> forall a, preserves I (inputHandler stateKey next a).
Proof.
  intros Hnext a. unfold inputHandler, getSlice.
  pose proof preserves_diff. preserve.
Qed.

Lemma preserves_outputHandler (next : action -> M action) :
  (forall a, preserves I (next a)) ->
  forall a, preserves I (outputHandler midiOptions next a).
Proof.
  intros Hnext a. unfold outputHandler.
  apply preserves_bind; [apply Hnext|]. intros a'.
  apply preserves_bind; [|intros; apply preserves_ret].
  destruct (String.eqb (type a') SEND_MIDI_MESSAGE); preserve.
Qed.

Lemma preserves_storeNext (a : action) : preserves I (storeNext stateKey a).
Proof.
  unfold storeNext. apply preserves_bind; [|intros; apply preserves_ret].
  apply preserves_modify. intros w H. apply I_root, H.
Qed.

Lemma preserves_storeDispatch (a : action) :
  preserves I (storeDispatch midiOptions stateKey a).
Proof.
  unfold storeDispatch. apply preserves_inputHandler.
  apply preserves_outputHandler. apply preserves_storeNext.
Qed.

Lemma preserves_inputMiddleware : preserves I (inputMiddleware midiOptions).
Proof. unfold inputMiddleware. preserve. Qed.

Lemma preserves_sendDeviceList (dispatch : action -> M action) :
  (forall a, preserves I (dispatch a)) -> preserves I (sendDeviceList stateKey dispatch).
Proof.
  intros Hd. unfold sendDeviceList, getSlice, member.
  assert (Hm : forall n, preserves I (modify (set_next_addr n))).
  { intros n. apply preserves_modify. intros w H. apply I_next_addr, H. }
  preserve.
Qed.

Lemma preserves_call_listener (dispatch : action -> M action) (l : listener) (ev : value) :
  (forall a, preserves I (dispatch a)) -> preserves I (call_listener dispatch l ev).
Proof.
  intros Hd. unfold call_listener. destruct l as [device].
  assert (Ha : preserves I alloc).
  { intros w H. apply I_next_addr, H. }
  preserve.
Qed.

Lemma preserves_run_continuation (dispatch : action -> M action) (k : continuation) :
  (forall a, preserves I (dispatch a)) ->
  preserves I (run_continuation stateKey dispatch k).
Proof.
  intros Hd. destruct k as [| |t d dev]; cbn [run_continuation].
  - intros w H. unfold bind, gets. destruct (midiAccess w) as [|p|m] eqn:Hc; cbn.
    + exact H.
    + apply I_jobs, H.
    + apply I_jobs, I_onstatechange; assumption.
  - apply preserves_sendDeviceList, Hd.
  - apply I_send.
Qed.

Lemma step_preserves (ev : hostEvent) (w : world) :
  ok ev -> I w -> I (step midiOptions stateKey ev w).
Proof.
  intros Hok H. destruct ev as [|a|p m|p e| |ins outs| |port event]; cbn [step].
  - apply preserves_inputMiddleware, H.
  - apply preserves_storeDispatch, H.
  - apply I_grant; assumption.
  - apply I_refuse, H.
  - unfold run_job. destruct (jobs w) as [|k rest] eqn:Hj; [exact H|].
    apply preserves_run_continuation; [apply preserves_storeDispatch|].
    apply I_jobs, H.
  - apply I_plug; assumption.
  - revert w H. change (preserves I (statechange stateKey (storeDispatch midiOptions stateKey))).
    unfold statechange. pose proof (preserves_sendDeviceList _ preserves_storeDispatch).
    preserve.
  - revert w H. change (preserves I (midimessage (storeDispatch midiOptions stateKey) port event)).
    unfold midimessage, access_map.
    pose proof (fun l => preserves_call_listener _ l event preserves_storeDispatch).
    preserve.
Qed.

Lemma run_preserves (events : list hostEvent) (w : world) :
  Forall ok events -> I w -> I (run midiOptions stateKey events w).
Proof.
  intros Hok. revert w. induction Hok as [|ev events Hev _ IH]; intros w H; cbn.
  - exact H.
  - apply IH, step_preserves; assumption.
Qed.

End Preservation.

(** What one step of the package can have done to the world. *)

Lemma assign_if_known_cases (cb : value -> option listener) (d : value) (w : world) :
  snd (assign_if_known cb d w) = w \/
  exists m s,
    midiAccess w = Granted m /\ d = VStr s /\
    snd (assign_if_known cb d w) =
      set_midiAccess (Granted
        {| inputs := set_onmidimessage s (cb d) (inputs m); outputs := outputs m;
           onstatechange := onstatechange m |}) w.
Proof.
  unfold assign_if_known, inputs_has, access_map, assign_onmidimessage, bind, gets, ret,
    throw, modify.
  destruct (midiAccess w) as [|p|m] eqn:Hc; cbn; try (left; reflexivity).
  destruct (map_has (inputs m) d); cbn; [|left; reflexivity].
  rewrite Hc. destruct d; cbn; try (left; reflexivity).
  destruct (find _ (inputs m)); cbn; [|left; reflexivity].
  right. exists m, s. repeat split; reflexivity.
Qed.

Lemma send_cases (t d dev : value) (w : world) :
  snd (send t d dev w) = w \/
  exists m port,
    midiAccess w = Granted m /\ map_get (outputs m) dev = Some port /\
    snd (send t d dev w) =
      set_sent (sent w ++ [{| to := port; sent_data := d; sent_timestamp := t |}]) w.
Proof.
  unfold send, access_map, bind, gets, ret, throw, modify.
  destruct (midiAccess w) as [|p|m] eqn:Hc; cbn; try (left; reflexivity).
  destruct (map_has (outputs m) dev); cbn; [|left; reflexivity].
  destruct (map_get (outputs m) dev) as [port|] eqn:Hg; cbn; [|left; reflexivity].
  right. exists m, port. repeat split; try reflexivity; assumption.
Qed.

Lemma then_cases (pr : promise) (k : continuation) (w : world) :
  snd (then_ pr k w) = w \/
  snd (then_ pr k w) = set_jobs (jobs w ++ [k]) w \/
  exists p r,
    pr = Stored p /\ requests w !! p = Some r /\ status r = Pending /\
    snd (then_ pr k w) = set_requests (<[p := add_waiter k r]> (requests w)) w.
Proof.
  destruct pr as [p|]; cbn [then_].
  - unfold bind, gets, ret, modify, enqueue.
    destruct (requests w !! p) as [r|] eqn:Hr; cbn; [|left; reflexivity].
    destruct (status r) eqn:Hs; cbn.
    + right. right. exists p, r. repeat split; assumption.
    + right. left. reflexivity.
    + left. reflexivity.
  - right. left. reflexivity.
Qed.

Lemma once_cases (midiOptions : value) (w : world) :
  (midiAccess w <> Unset /\ snd (requestMIDIAccessOnce midiOptions w) = w) \/
  (midiAccess w = Unset /\
   snd (requestMIDIAccessOnce midiOptions w) =
     set_midiAccess (InFlight (length (requests w)))
       (set_requests
          (requests w ++ [{| options := midiOptions; status := Pending; waiters := [] |}]) w)).
Proof.
  destruct (midiAccess w) as [|p|m] eqn:Hc.
  - right. split; [reflexivity|]. rewrite (once_unset _ _ Hc). reflexivity.
  - left. split; [discriminate|]. rewrite (once_in_flight _ _ _ Hc). reflexivity.
  - left. split; [discriminate|]. rewrite (once_granted _ _ _ Hc). reflexivity.
Qed.

Lemma resolve_cases (p : nat) (m : MIDIAccess) (w : world) :
  resolve p m w = w \/
  exists r,
    requests w !! p = Some r /\ status r = Pending /\
    resolve p m w =
      set_jobs (jobs w ++ waiters r)
        (set_midiAccess (Granted m)
           (set_requests
              (<[p := {| options := options r; status := Fulfilled; waiters := [] |}]>
                 (requests w)) w)).
Proof.
  unfold resolve. destruct (requests w !! p) as [r|] eqn:Hr; [|left; reflexivity].
  destruct (status r) eqn:Hs; try (left; reflexivity).
  right. exists r. repeat split; try reflexivity; assumption.
Qed.

Lemma reject_cases (p : nat) (e : error) (w : world) :
  reject p e w = w \/
  exists r,
    requests w !! p = Some r /\ status r = Pending /\
    reject p e w =
      set_requests
        (<[p := {| options := options r; status := Rejected e; waiters := [] |}]>
           (requests w)) w.
Proof.
  unfold reject. destruct (requests w !! p) as [r|] eqn:Hr; [|left; reflexivity].
  destruct (status r) eqn:Hs; try (left; reflexivity).
  right. exists r. repeat split; try reflexivity; assumption.
Qed.

Lemma run_requests_ok (midiOptions : value) (stateKey : string) (events : list hostEvent)
    (w : world) :
  requests_ok midiOptions w -> requests_ok midiOptions (run midiOptions stateKey events w).
Proof.
  apply (run_preserves (requests_ok midiOptions) (fun _ => True)).
  - intros j w0 H. exact H.
  - intros r w0 H. exact H.
  - intros n w0 H. exact H.
  - intros w0 [H1 H2]. destruct (once_cases midiOptions w0) as [[_ ->]|[Hc ->]];
      [split; assumption|].
    unfold requests_ok, one_request in *. cbn. rewrite Hc in H1. split.
    + rewrite length_app, H1. reflexivity.
    + apply Forall_app. split; [exact H2 | repeat constructor].
  - intros pr k w0 [H1 H2].
    destruct (then_cases pr k w0) as [->|[->|(p & r & _ & Hr & _ & ->)]];
      try (split; assumption).
    unfold requests_ok, one_request in *. cbn. rewrite length_insert. split; [exact H1|].
    apply Forall_insert; [exact H2|]. cbn.
    apply (Forall_lookup_1 _ _ _ _ H2 Hr).
  - intros d w0 [H1 H2].
    destruct (assign_if_known_cases (fun d => Some (Listener d)) d w0)
      as [Hsame|(m & s & Hc & _ & Hset)];
      change (assign_if_known (fun d => Some (Listener d)) d) with (listen d) in *.
    + rewrite Hsame. split; assumption.
    + rewrite Hset. unfold requests_ok, one_request in *. cbn. rewrite Hc in H1.
      split; assumption.
  - intros d w0 [H1 H2].
    destruct (assign_if_known_cases (fun _ => None) d w0)
      as [Hsame|(m & s & Hc & _ & Hset)];
      change (assign_if_known (fun _ => None) d) with (unlisten d) in *.
    + rewrite Hsame. split; assumption.
    + rewrite Hset. unfold requests_ok, one_request in *. cbn. rewrite Hc in H1.
      split; assumption.
  - intros t d dev w0 H.
    destruct (send_cases t d dev w0) as [->|(m & port & _ & _ & ->)]; exact H.
  - intros w0 m [H1 H2] Hc. unfold requests_ok, one_request in *. cbn.
    rewrite Hc in H1. split; assumption.
  - intros p m w0 _ [H1 H2].
    destruct (resolve_cases p m w0) as [->|(r & Hr & _ & ->)]; [split; assumption|].
    unfold requests_ok, one_request in *. cbn. rewrite length_insert. split.
    + destruct (midiAccess w0); [|exact H1|exact H1].
      apply lookup_lt_Some in Hr. lia.
    + apply Forall_insert; [exact H2|]. cbn.
      apply (Forall_lookup_1 _ _ _ _ H2 Hr).
  - intros p e w0 [H1 H2].
    destruct (reject_cases p e w0) as [->|(r & Hr & _ & ->)]; [split; assumption|].
    unfold requests_ok, one_request in *. cbn. rewrite length_insert. split; [exact H1|].
    apply Forall_insert; [exact H2|]. cbn.
    apply (Forall_lookup_1 _ _ _ _ H2 Hr).
  - intros ins outs w0 _ [H1 H2]. unfold plug.
    destruct (midiAccess w0) as [|p|m] eqn:Hc; try (split; assumption).
    unfold requests_ok, one_request in *. cbn. rewrite Hc in H1. split; assumption.
  - apply Forall_forall. intros. exact Logic.I.
Qed.

(** X4: whatever happens to a [setup] and its store (the middleware is
    applied, actions are dispatched, the host grants or refuses, reactions
    run, ports change, messages arrive), the underlying [requestMIDIAccess]
    is called at most once, with the [midiOptions] of [setup], and it has
    been called exactly when [midiAccess] is no longer [undefined]. *)
Theorem at_most_one_request (midiOptions : value) (stateKey : string)
    (events : list hostEvent) :
  let w := run midiOptions stateKey events fresh_world in
  length (requests w) <= 1 /\
  (length (requests w) = 1 <-> midiAccess w <> Unset) /\
  Forall (fun r => options r = midiOptions) (requests w).
Proof.
  intros w.
  assert (H : requests_ok midiOptions w).
  { apply run_requests_ok. split; [reflexivity | constructor]. }
  destruct H as [H1 H2]. unfold one_request in H1.
  repeat apply conj; [| | |exact H2].
  - rewrite H1. destruct (midiAccess w); lia.
  - intros Hlen Hc. rewrite Hc in H1. lia.
  - intros Hc. rewrite H1. destruct (midiAccess w); [contradiction Hc|..]; reflexivity.
Qed.

Lemma map_get_In (ins : portMap) (k : string) (p : MIDIPort) :
  map_get ins (VStr k) = Some p -> In (k, p) ins.
Proof.
  cbn. destruct (find _ ins) as [[k' p']|] eqn:Hf; cbn; [|discriminate].
  intros [= ->]. apply find_some in Hf. destruct Hf as [Hin Hk]. cbn in Hk.
  apply String.eqb_eq in Hk. subst k'. exact Hin.
Qed.

Lemma run_callbacks_match (midiOptions : value) (stateKey : string)
    (events : list hostEvent) (w : world) :
  Forall host_ports_ok events ->
  callbacks_match w -> callbacks_match (run midiOptions stateKey events w).
Proof.
  apply (run_preserves callbacks_match host_ports_ok).
  - intros j w0 H. exact H.
  - intros r w0 H. exact H.
  - intros n w0 H. exact H.
  - intros w0 H. destruct (once_cases midiOptions w0) as [[_ ->]|[_ ->]];
      [exact H | exact Logic.I].
  - intros pr k w0 H.
    destruct (then_cases pr k w0) as [->|[->|(p & r & _ & _ & _ & ->)]]; exact H.
  - intros d w0 H.
    destruct (assign_if_known_cases (fun d => Some (Listener d)) d w0)
      as [Hsame|(m & s & Hc & -> & Hset)];
      change (assign_if_known (fun d => Some (Listener d)) ?x) with (listen x) in *.
    + rewrite Hsame. exact H.
    + rewrite Hset. unfold callbacks_match in *. cbn. rewrite Hc in H.
      apply callbacks_ok_set; [|exact H]. intros d [= <-]. reflexivity.
  - intros d w0 H.
    destruct (assign_if_known_cases (fun _ => None) d w0)
      as [Hsame|(m & s & Hc & -> & Hset)];
      change (assign_if_known (fun _ => None) ?x) with (unlisten x) in *.
    + rewrite Hsame. exact H.
    + rewrite Hset. unfold callbacks_match in *. cbn. rewrite Hc in H.
      apply callbacks_ok_set; [|exact H]. intros d [=].
  - intros t d dev w0 H.
    destruct (send_cases t d dev w0) as [->|(m & port & _ & _ & ->)]; exact H.
  - intros w0 m H Hc. unfold callbacks_match in *. cbn. rewrite Hc in H. exact H.
  - intros p m w0 Hok H.
    destruct (resolve_cases p m w0) as [->|(r & _ & _ & ->)]; [exact H | exact Hok].
  - intros p e w0 H.
    destruct (reject_cases p e w0) as [->|(r & _ & _ & ->)]; exact H.
  - intros ins outs w0 Hok H. unfold plug.
    destruct (midiAccess w0) as [|p|m] eqn:Hc; try exact H. exact Hok.
Qed.

Lemma midimessage_cases (port : string) (event : value) (w : world) :
  callbacks_match w ->
  (exists r, forall dispatch, midimessage dispatch port event w = (r, w)) \/
  (forall dispatch,
     midimessage dispatch port event w =
       call_listener dispatch (Listener (VStr port)) event w).
Proof.
  intros H. unfold midimessage, access_map, callbacks_match in *.
  unfold bind, gets, ret, throw.
  destruct (midiAccess w) as [|p|m]; try (left; eexists; intros; reflexivity).
  destruct (map_get (inputs m) (VStr port)) as [q|] eqn:Hget;
    [|left; eexists; intros; reflexivity].
  destruct (onmidimessage q) as [[d]|] eqn:Hcb; [|left; eexists; intros; reflexivity].
  right. intros dispatch.
  apply map_get_In in Hget. unfold callbacks_ok in H. rewrite List.Forall_forall in H.
  rewrite (H _ Hget d Hcb). reflexivity.
Qed.

(** X5: whatever happened before, as long as the ports the host hands
    over carry no callback of another port, a message that arrives on the
    input with key [port] either dispatches nothing, the port having no
    callback then, or dispatches one RECEIVE_MIDI_MESSAGE whose [device] is
    [port]: no callback ever reports a message under the id of another
    port. *)
Theorem messages_carry_their_port (midiOptions : value) (stateKey : string)
    (events : list hostEvent) (port : string) (ea : addr)
    (fields : list (string * value)) :
  Forall host_ports_ok events ->
  let w := run midiOptions stateKey events fresh_world in
  (exists r, forall dispatch, midimessage dispatch port (VObj ea fields) w = (r, w)) \/
  (forall dispatch,
     midimessage dispatch port (VObj ea fields) w =
       (dispatch
          {| type := RECEIVE_MIDI_MESSAGE;
             payload :=
               VObj (next_addr w)
                 [ ("timestamp",
                    first_defined (field "receivedTime" fields)
                      (field "timeStamp" fields) (field "timestamp" fields));
                   ("data", field "data" fields);
                   ("device", VStr port) ] |};;; ret tt)
         (set_next_addr (S (next_addr w)) w)).
Proof.
  intros Hok w.
  assert (H : callbacks_match w).
  { apply run_callbacks_match; [exact Hok | exact Logic.I]. }
  destruct (midimessage_cases port (VObj ea fields) w H) as [Hnone|Hcall];
    [left; exact Hnone | right].
  intros dispatch. rewrite Hcall, call_listener_eq. reflexivity.
Qed.

Lemma run_refused (midiOptions : value) (stateKey : string) (events : list hostEvent)
    (e : error) (s : list sendCall) (w : world) :
  refused e s w -> refused e s (run midiOptions stateKey events w).
Proof.
  apply (run_preserves (refused e s) (fun _ => True)).
  - intros j w0 H. exact H.
  - intros r w0 H. exact H.
  - intros n w0 H. exact H.
  - intros w0 H. destruct (once_cases midiOptions w0) as [[_ ->]|[Hc _]]; [exact H|].
    destruct H as [Hc' _]. congruence.
  - intros pr k w0 H.
    destruct (then_cases pr k w0) as [->|[->|(p & r & _ & Hr & Hs & _)]]; try exact H.
    destruct H as (_ & (r0 & Hrs & Hrej) & _). rewrite Hrs in Hr.
    destruct p as [|p]; cbn in Hr; [|discriminate]. injection Hr as <-. congruence.
  - intros d w0 H.
    destruct (assign_if_known_cases (fun d => Some (Listener d)) d w0)
      as [Hsame|(m & s0 & Hc & _ & _)];
      change (assign_if_known (fun d => Some (Listener d)) ?x) with (listen x) in *.
    + rewrite Hsame. exact H.
    + destruct H as [Hc' _]. congruence.
  - intros d w0 H.
    destruct (assign_if_known_cases (fun _ => None) d w0)
      as [Hsame|(m & s0 & Hc & _ & _)];
      change (assign_if_known (fun _ => None) ?x) with (unlisten x) in *.
    + rewrite Hsame. exact H.
    + destruct H as [Hc' _]. congruence.
  - intros t d dev w0 H.
    destruct (send_cases t d dev w0) as [->|(m & port & Hc & _ & _)]; [exact H|].
    destruct H as [Hc' _]. congruence.
  - intros w0 m [Hc' _] Hc. congruence.
  - intros p m w0 _ H.
    destruct (resolve_cases p m w0) as [->|(r & Hr & Hs & _)]; [exact H|].
    destruct H as (_ & (r0 & Hrs & Hrej) & _). rewrite Hrs in Hr.
    destruct p as [|p]; cbn in Hr; [|discriminate]. injection Hr as <-. congruence.
  - intros p e0 w0 H.
    destruct (reject_cases p e0 w0) as [->|(r & Hr & Hs & _)]; [exact H|].
    destruct H as (_ & (r0 & Hrs & Hrej) & _). rewrite Hrs in Hr.
    destruct p as [|p]; cbn in Hr; [|discriminate]. injection Hr as <-. congruence.
  - intros ins outs w0 _ H. unfold plug. destruct H as [Hc H]. rewrite Hc.
    split; assumption.
  - apply Forall_forall. intros. exact Logic.I.
Qed.

(** X6: a refusal is final.  Once the host has refused the request of a
    [setup], whatever happens afterwards, [midiAccess] keeps the refused
    promise, no other request is made and no [send] call is ever made on an
    output: every SEND_MIDI_MESSAGE is dropped. *)
Theorem refusal_is_final (midiOptions : value) (stateKey : string)
    (before after : list hostEvent) (p : nat) (e : error) :
  let w := run midiOptions stateKey before fresh_world in
  midiAccess w = InFlight p ->
  status <$> requests w !! p = Some Pending ->
  let w' := run midiOptions stateKey after (reject p e w) in
  sent w' = sent w /\
  midiAccess w' = InFlight p /\
  length (requests w') = 1 /\
  status <$> requests w' !! p = Some (Rejected e).
Proof.
  intros w Hc Hp w'.
  assert (H : requests_ok midiOptions w).
  { apply run_requests_ok. split; [reflexivity | constructor]. }
  destruct H as [Hone _]. unfold one_request in Hone. rewrite Hc in Hone.
  destruct (requests w) as [|r [|r' rs]] eqn:Hrs; try discriminate.
  destruct p as [|p]; [|discriminate]. cbn in Hp. injection Hp as Hs.
  assert (Href : refused e (sent w) (reject 0 e w)).
  { unfold reject. rewrite Hrs. cbn. rewrite Hs. repeat split; cbn; [exact Hc|].
    eexists. split; reflexivity. }
  pose proof (run_refused midiOptions stateKey after e (sent w) _ Href)
    as (Hc' & (r0 & Hrs' & Hrej) & Hsent).
  fold w' in Hc', Hrs', Hsent. rewrite Hrs'. cbn. rewrite Hrej.
  repeat split; assumption.
Qed.

Lemma refusal_is_final_witness :
  let e := Error "Web MIDI API not available" in
  let w := run VUndefined "midi" [ApplyInputMiddleware] fresh_world in
  let w' := run VUndefined "midi"
              [Dispatch (sendMidiMessage note_on); RunJob; Grant 0 sample_access; RunJob]
              (reject 0 e w) in
  midiAccess w = InFlight 0 /\
  status <$> requests w !! 0 = Some Pending /\
  sent w' = sent w /\
  midiAccess w' = InFlight 0.
Proof.
  cbv zeta. split; [reflexivity|]. split; [reflexivity|].
  destruct (refusal_is_final VUndefined "midi" [ApplyInputMiddleware]
              [Dispatch (sendMidiMessage note_on); RunJob; Grant 0 sample_access; RunJob]
              0 (Error "Web MIDI API not available") eq_refl eq_refl)
    as (Hsent & Hc & _).
  split; assumption.
Defined.

Lemma messages_carry_their_port_witness :
  let events := [ ApplyInputMiddleware; Grant 0 sample_access; RunJob; RunJob;
                  Dispatch (setListeningDevices (VArr 40 [VStr "in1"])) ] in
  let w := run VUndefined "midi" events fresh_world in
  Forall host_ports_ok events /\
  ((exists r, forall dispatch,
      midimessage dispatch "in1" (VObj 50 [("timestamp", VNum 7)]) w = (r, w)) \/
   (forall dispatch,
      midimessage dispatch "in1" (VObj 50 [("timestamp", VNum 7)]) w =
        (dispatch
           {| type := RECEIVE_MIDI_MESSAGE;
              payload := VObj (next_addr w)
                           [ ("timestamp", VNum 7); ("data", VUndefined);
                             ("device", VStr "in1") ] |};;; ret tt)
          (set_next_addr (S (next_addr w)) w))).
Proof.
  cbv zeta.
  assert (Hok : Forall host_ports_ok
                  [ ApplyInputMiddleware; Grant 0 sample_access; RunJob; RunJob;
                    Dispatch (setListeningDevices (VArr 40 [VStr "in1"])) ]).
  { repeat constructor. cbn. intros d H. discriminate H. }
  split; [exact Hok|].
  exact (messages_carry_their_port VUndefined "midi" _ "in1" 50 [("timestamp", VNum 7)] Hok).
Defined.

(** ** The handler before the access object is there *)

Lemma mem_In (k : string) (l : list string) : In k l -> mem k l = true.
Proof.
  unfold mem. intros H. apply existsb_exists. exists k. split; [exact H|].
  apply String.eqb_refl.
Qed.

Lemma filter_none (f : string -> bool) (l : list string) :
  (forall k, In k l -> f k = false) -> List.filter f l = [].
Proof.
  induction l as [|s l IH]; intros H; cbn; [reflexivity|].
  rewrite (H s (or_introl eq_refl)). apply IH. intros k Hk. apply H. right. exact Hk.
Qed.

Lemma inputs_has_not_granted (d : value) (w : world) :
  (forall m, midiAccess w <> Granted m) ->
  exists msg, inputs_has d w = (Throw (TypeError msg), w).
Proof.
  intros Hc. unfold inputs_has, access_map, bind, gets, ret, throw.
  destruct (midiAccess w) as [|p|m]; [| |exfalso; apply (Hc m); reflexivity];
    eexists; reflexivity.
Qed.

Lemma forEach_assign_not_granted (cb : value -> option listener) (x : value)
    (xs : list value) (w : world) :
  (forall m, midiAccess w <> Granted m) ->
  exists msg, forEach (assign_if_known cb) (x :: xs) w = (Throw (TypeError msg), w).
Proof.
  intros Hc. destruct (inputs_has_not_granted x w Hc) as [msg Hx].
  exists msg. cbn [forEach]. unfold bind at 1. unfold assign_if_known.
  unfold bind at 1. rewrite Hx. reflexivity.
Qed.

(** X7: what the handler does with a new [listeningDevices] does not
    need the access object as long as no id was added or removed: with the
    same ids as before, in a new array or not, the action is returned and
    nothing is changed, whatever [midiAccess] holds.  But while
    [midiAccess] holds no access object, a dispatch that adds or removes an
    id throws a TypeError, after the action was forwarded. *)
Theorem inputHandler_before_access (stateKey : string) (next : action -> M action)
    (a a' : action) (w0 w : world) (state : coreState)
    (aP aN : addr) (prevL nextL : list string) :
  let prevState := default initialState (root w0 !! stateKey) in
  next a w0 = (Ok a', w) ->
  root w !! stateKey = Some state ->
  listeningDevices prevState = VArr aP (map VStr prevL) ->
  listeningDevices state = VArr aN (map VStr nextL) ->
  strict_neq (devices state) (devices prevState) = false ->
  ((forall k, mem k nextL = mem k prevL) ->
   inputHandler stateKey next a w0 = (Ok a', w)) /\
  ((forall m, midiAccess w <> Granted m) ->
   aN <> aP ->
   (exists k, mem k nextL <> mem k prevL) ->
   exists msg, inputHandler stateKey next a w0 = (Throw (TypeError msg), w)).
Proof.
  intros prevState Hnext Hstate HP HN HD.
  pose proof (diff_granted w {| inputs := []; outputs := []; onstatechange := None |}
                prevState state aP aN prevL nextL [] [] HP HN) as Hdiff.
  rewrite HD in Hdiff. specialize (Hdiff (fun H => False_ind _ (Bool.diff_false_true H))).
  rewrite app_nil_r in Hdiff.
  assert (Hrun :
    inputHandler stateKey next a w0 =
      (forEach (assign_if_known (fun _ => None))
         (if negb (aN =? aP)
          then List.filter (fun dev => negb (set_has (map VStr nextL) dev)) (map VStr prevL)
          else []);;;
       forEach (assign_if_known (fun d => Some (Listener d)))
         (if negb (aN =? aP)
          then List.filter (fun dev => negb (set_has (map VStr prevL) dev)) (map VStr nextL)
          else []);;;
       ret a') w).
  { rewrite (inputHandler_after_next _ _ _ _ _ _ Hnext), Hstate. fold prevState.
    unfold bind at 1. rewrite Hdiff. rewrite HP, HN. reflexivity. }
  rewrite Hrun. clear Hrun Hdiff.
  split.
  - intros Hsame. destruct (negb (aN =? aP)); [|reflexivity].
    rewrite !filter_strings.
    rewrite (filter_none _ prevL), (filter_none _ nextL); [reflexivity| |].
    + intros k Hk. rewrite set_has_mem, <- Hsame, (mem_In _ _ Hk). reflexivity.
    + intros k Hk. rewrite set_has_mem, Hsame, (mem_In _ _ Hk). reflexivity.
  - intros Hc Hne [k Hk]. apply Nat.eqb_neq in Hne. rewrite Hne. cbn [negb].
    rewrite !filter_strings.
    destruct (List.filter (fun k => negb (set_has (map VStr nextL) (VStr k))) prevL)
      as [|u us] eqn:HU; cbn [map].
    + destruct (List.filter (fun k => negb (set_has (map VStr prevL) (VStr k))) nextL)
        as [|l ls] eqn:HL; cbn [map].
      * exfalso. apply Hk.
        pose proof (mem_filter (fun k => negb (set_has (map VStr nextL) (VStr k))) prevL k)
          as H1.
        pose proof (mem_filter (fun k => negb (set_has (map VStr prevL) (VStr k))) nextL k)
          as H2.
        rewrite HU in H1. rewrite HL in H2. rewrite set_has_mem in H1, H2.
        cbn in H1, H2. destruct (mem k nextL), (mem k prevL); try reflexivity; discriminate.
      * unfold bind at 1. unfold forEach at 1. unfold ret at 1. cbv beta iota.
        destruct (forEach_assign_not_granted (fun d => Some (Listener d)) (VStr l)
                    (map VStr ls) w Hc) as [msg Hthrow].
        exists msg. unfold bind at 1. rewrite Hthrow. reflexivity.
    + destruct (forEach_assign_not_granted (fun _ => None) (VStr u) (map VStr us) w Hc)
        as [msg Hthrow].
      exists msg. unfold bind at 1. rewrite Hthrow. reflexivity.
Qed.

Lemma inputHandler_before_access_witness :
  let a := setListeningDevices (VArr 40 []) in
  let b := setListeningDevices (VArr 41 [VStr "in1"]) in
  storeNext "midi" a sample_pending = (Ok a, snd (storeNext "midi" a sample_pending)) /\
  inputHandler "midi" (storeNext "midi") a sample_pending =
    (Ok a, snd (storeNext "midi" a sample_pending)) /\
  exists msg,
    inputHandler "midi" (storeNext "midi") b sample_pending =
      (Throw (TypeError msg), snd (storeNext "midi" b sample_pending)).
Proof.
  cbv zeta. split; [reflexivity|]. split.
  - apply (inputHandler_before_access "midi" (storeNext "midi")
             (setListeningDevices (VArr 40 [])) (setListeningDevices (VArr 40 []))
             sample_pending _ {| devices := VArr 0 []; listeningDevices := VArr 40 [] |}
             1 40 [] [] eq_refl eq_refl eq_refl eq_refl eq_refl).
    intros k. reflexivity.
  - apply (inputHandler_before_access "midi" (storeNext "midi")
             (setListeningDevices (VArr 41 [VStr "in1"]))
             (setListeningDevices (VArr 41 [VStr "in1"]))
             sample_pending _
             {| devices := VArr 0 []; listeningDevices := VArr 41 [VStr "in1"] |}
             1 41 [] ["in1"] eq_refl eq_refl eq_refl eq_refl eq_refl).
    + intros m. discriminate.
    + discriminate.
    + exists "in1". discriminate.
Defined.

(** ** The device list, again *)

Lemma field_shape (name : string) (fs gs : list (string * value)) :
  map (fun kv => (fst kv, shape_of (snd kv))) fs =
  map (fun kv => (fst kv, shape_of (snd kv))) gs ->
  shape_of (field name fs) = shape_of (field name gs).
Proof.
  revert gs. induction fs as [|[k x] fs IH]; intros [|[l y] gs]; cbn;
    try discriminate; try reflexivity.
  intros [= -> Hxy Hrest]. destruct (String.eqb l name); [exact Hxy | apply IH, Hrest].
Qed.

Lemma property_shape (name : string) (x y : value) :
  shape_of x = shape_of y ->
  shape_of (Lodash.property name x) = shape_of (Lodash.property name y).
Proof.
  destruct x, y; cbn; try discriminate; try reflexivity.
  intros [= H]. apply field_shape, H.
Qed.

Lemma ascending_shape (x x' y y' : value) :
  shape_of x = shape_of x' -> shape_of y = shape_of y' ->
  Lodash.ascending x y = Lodash.ascending x' y'.
Proof.
  destruct x, x'; cbn; try discriminate; intros Hx;
    destruct y, y'; cbn; try discriminate; intros Hy; try reflexivity;
    injection Hx as Hx; injection Hy as Hy; subst; reflexivity.
Qed.

Lemma insert_shape (name : string) (x x' : value) (l l' : list value) :
  shape_of x = shape_of x' -> map shape_of l = map shape_of l' ->
  map shape_of (Lodash.insert (Lodash.property name) x l) =
  map shape_of (Lodash.insert (Lodash.property name) x' l').
Proof.
  intros Hx. revert l'. induction l as [|y l IH]; intros [|y' l']; cbn;
    try discriminate.
  - intros _. rewrite Hx. reflexivity.
  - intros [= Hy Hl].
    rewrite (ascending_shape _ (Lodash.property name x') _ (Lodash.property name y'))
      by (apply property_shape; assumption).
    destruct (Lodash.ascending _ _); cbn.
    + rewrite Hx, Hy, Hl. reflexivity.
    + rewrite Hy, (IH _ Hl). reflexivity.
Qed.

(** Sorting looks at values only: lists of the same shape are sorted into
    lists of the same shape. *)
Lemma sortBy_shape (name : string) (l l' : list value) :
  map shape_of l = map shape_of l' ->
  map shape_of (Lodash.sortBy l name) = map shape_of (Lodash.sortBy l' name).
Proof.
  unfold Lodash.sortBy. revert l'. induction l as [|x l IH]; intros [|x' l']; cbn;
    try discriminate; [reflexivity|].
  intros [= Hx Hl]. apply insert_shape; [exact Hx | apply IH, Hl].
Qed.

Lemma descriptors_shape (base : addr) (m : MIDIAccess) :
  map shape_of (descriptors base m) =
  map shape_of (map (descriptor 0) (map_values (inputs m) ++ map_values (outputs m))).
Proof.
  unfold descriptors. generalize (map_values (inputs m) ++ map_values (outputs m)).
  intros ports. revert base. induction ports as [|p ports IH]; intros base; cbn [imap map].
  - reflexivity.
  - f_equal. rewrite (imap_ext _ (fun i device => descriptor (S base + i) device)).
    + apply IH.
    + intros i x _. cbn. f_equal. lia.
Qed.

Lemma same_ports_set (m : MIDIAccess) (s : string) (cb : option listener) :
  same_ports m {| inputs := set_onmidimessage s cb (inputs m); outputs := outputs m;
                  onstatechange := onstatechange m |}.
Proof.
  unfold same_ports. cbn [inputs outputs]. rewrite !map_app. f_equal.
  unfold map_values. induction (inputs m) as [|[k p] ins IH]; cbn; [reflexivity|].
  destruct (String.eqb k s); cbn; [reflexivity | rewrite IH; reflexivity].
Qed.

Lemma snapshot_kept_assign (r : gmap string coreState) (j : list continuation)
    (s : list sendCall) (m : MIDIAccess) (cb : value -> option listener) (d : value) :
  preserves (snapshot_kept r j s m) (assign_if_known cb d).
Proof.
  intros w (Hr & Hj & Hs & m' & Hc & Hsame & Hsc).
  destruct (assign_if_known_cases cb d w) as [->|(m0 & k & Hc0 & _ & ->)].
  - repeat split; try assumption. eauto.
  - repeat split; try assumption. eexists. split; [reflexivity|].
    rewrite Hc in Hc0. injection Hc0 as <-. split; [|exact Hsc].
    unfold same_ports in *. rewrite <- Hsame. apply same_ports_set.
Qed.

Lemma storeDispatch_device_list (midiOptions : value) (stateKey : string)
    (devs : value) (w : world) (m : MIDIAccess) :
  midiAccess w = Granted m ->
  snapshot_kept (<[stateKey := reducer (root w !! stateKey) (receiveDeviceList devs)]> (root w))
    (jobs w) (sent w) m
    (snd (storeDispatch midiOptions stateKey (receiveDeviceList devs) w)).
Proof.
  intros Hc. unfold storeDispatch.
  erewrite inputHandler_after_next; [|reflexivity].
  apply preserves_bind.
  - apply preserves_diff.
  - intros [toListen toUnlisten].
    apply preserves_bind; [apply preserves_forEach; intro; apply snapshot_kept_assign|].
    intros _. apply preserves_bind; [|intros _; apply preserves_ret].
    apply preserves_forEach. intro. apply snapshot_kept_assign.
  - split; [reflexivity|]. split; [reflexivity|]. split; [reflexivity|].
    exists m. split; [exact Hc|]. split; reflexivity.
Qed.

Lemma sendDeviceList_eq (stateKey : string) (dispatch : action -> M action)
    (w : world) (m : MIDIAccess) (state : coreState) :
  midiAccess w = Granted m ->
  root w !! stateKey = Some state ->
  sendDeviceList stateKey dispatch w =
    (let objects := descriptors (next_addr w) m in
     let devices' := VArr (next_addr w + length objects) (Lodash.sortBy objects "id") in
     if negb (DeepEqual.deepEqual devices' (devices state))
     then dispatch (receiveDeviceList devices');;; ret tt
     else ret tt) (set_next_addr (S (next_addr w + length (descriptors (next_addr w) m))) w).
Proof.
  intros Hc Hroot. unfold sendDeviceList, getSlice, bind, gets, modify. rewrite Hc.
  cbn [root set_next_addr]. rewrite Hroot. cbn [member]. unfold ret. cbv zeta.
  destruct (negb _); reflexivity.
Qed.

Lemma snapshot_shape (b b' a a' : addr) (m m' : MIDIAccess) :
  same_ports m m' ->
  shape_of (VArr a' (Lodash.sortBy (descriptors b' m') "id")) =
  shape_of (VArr a (Lodash.sortBy (descriptors b m) "id")).
Proof.
  intros Hsame. cbn [shape_of]. f_equal. apply sortBy_shape.
  rewrite !descriptors_shape. unfold same_ports in Hsame. rewrite Hsame. reflexivity.
Qed.

(** X8: the device list settles.  In a store that applies the two
    middleware and mounts the reducer at [stateKey], once a snapshot was
    taken, a further snapshot of ports with the same descriptors dispatches
    nothing, whether the first one dispatched RECEIVE_DEVICE_LIST or found
    the list already in the state, and whatever the handler did with it. *)
Theorem sendDeviceList_settles (midiOptions : value) (stateKey : string)
    (w : world) (m : MIDIAccess) (state : coreState) :
  midiAccess w = Granted m ->
  root w !! stateKey = Some state ->
  let dispatch := storeDispatch midiOptions stateKey in
  let w1 := snd (sendDeviceList stateKey dispatch w) in
  exists n, sendDeviceList stateKey dispatch w1 = (Ok tt, set_next_addr n w1).
Proof.
  intros Hc Hroot dispatch w1. subst w1.
  rewrite (sendDeviceList_eq _ dispatch _ _ _ Hc Hroot). cbv zeta.
  set (a := next_addr w + length (descriptors (next_addr w) m)).
  set (devs := VArr a (Lodash.sortBy (descriptors (next_addr w) m) "id")).
  destruct (DeepEqual.deepEqual devs (devices state)) eqn:Heq; cbn [negb].
  - unfold ret at 1. cbn [snd].
    rewrite (sendDeviceList_eq _ dispatch (set_next_addr (S a) w) m state Hc Hroot).
    cbv zeta. cbn [next_addr set_next_addr].
    apply deepEqual_shape in Heq.
    assert (Heq' : DeepEqual.deepEqual
                     (VArr (S a + length (descriptors (S a) m))
                        (Lodash.sortBy (descriptors (S a) m) "id"))
                     (devices state) = true).
    { apply deepEqual_shape. rewrite <- Heq. apply snapshot_shape. reflexivity. }
    rewrite Heq'. cbn [negb]. eexists. reflexivity.
  - assert (Hsnd : snd ((dispatch (receiveDeviceList devs);;; ret tt) (set_next_addr (S a) w)) =
                   snd (dispatch (receiveDeviceList devs) (set_next_addr (S a) w))).
    { unfold bind. destruct (dispatch _ _) as [[x|e] w']; reflexivity. }
    rewrite Hsnd. clear Hsnd.
    pose proof (storeDispatch_device_list midiOptions stateKey devs
                  (set_next_addr (S a) w) m Hc) as (Hr & _ & _ & m' & Hc' & Hsame & _).
    fold dispatch in Hr, Hc'.
    set (w1 := snd (dispatch (receiveDeviceList devs) (set_next_addr (S a) w))) in *.
    cbn [root set_next_addr] in Hr. rewrite Hroot in Hr.
    assert (Hroot1 : root w1 !! stateKey =
                     Some {| devices := devs; listeningDevices := listeningDevices state |}).
    { rewrite Hr, lookup_insert_eq. rewrite reducer_eq. reflexivity. }
    rewrite (sendDeviceList_eq _ dispatch w1 m' _ Hc' Hroot1). cbv zeta. cbn [devices].
    assert (Heq' : DeepEqual.deepEqual
                     (VArr (next_addr w1 + length (descriptors (next_addr w1) m'))
                        (Lodash.sortBy (descriptors (next_addr w1) m') "id"))
                     devs = true).
    { apply deepEqual_shape. apply snapshot_shape. exact Hsame. }
    rewrite Heq'. cbn [negb]. eexists. reflexivity.
Qed.

Lemma sendDeviceList_settles_witness :
  let dispatch := storeDispatch VUndefined "midi" in
  let w1 := snd (sendDeviceList "midi" dispatch sample_ready) in
  midiAccess sample_ready = Granted sample_access /\
  root sample_ready !! "midi" = Some initialState /\
  exists n, sendDeviceList "midi" dispatch w1 = (Ok tt, set_next_addr n w1).
Proof.
  cbv zeta. split; [reflexivity|]. split; [reflexivity|].
  exact (sendDeviceList_settles VUndefined "midi" sample_ready sample_access initialState
           eq_refl eq_refl).
Defined.

(** ** Actions the package has nothing to do with *)

Lemma strict_eq_refl (v : value) : strict_eq v v = true.
Proof.
  destruct v; cbn; try reflexivity.
  - destruct b; reflexivity.
  - apply Z.eqb_refl.
  - apply String.eqb_refl.
  - apply Nat.eqb_refl.
  - apply Nat.eqb_refl.
Qed.

Lemma set_root_id (w : world) (r : gmap string coreState) :
  root w = r -> set_root r w = w.
Proof. destruct w; cbn. intros ->. reflexivity. Qed.

(** X9: an action that is neither a RECEIVE_DEVICE_LIST, nor a
    SET_LISTENING_DEVICES, nor a SEND_MIDI_MESSAGE goes through the two
    middleware and the reducer and comes back as it is, with nothing
    changed: no request is made for it, nothing is sent, no callback is
    touched, and this whatever [midiAccess] holds at the time.  A
    RECEIVE_MIDI_MESSAGE is such an action. *)
Theorem other_actions_pass_through (midiOptions : value) (stateKey : string)
    (a : action) (w : world) (state : coreState) :
  root w !! stateKey = Some state ->
  type a <> RECEIVE_DEVICE_LIST ->
  type a <> SET_LISTENING_DEVICES ->
  type a <> SEND_MIDI_MESSAGE ->
  storeDispatch midiOptions stateKey a w = (Ok a, w).
Proof.
  intros Hroot Hd Hl Hs.
  apply String.eqb_neq in Hd, Hl, Hs.
  assert (Hred : reducer (Some state) a = state).
  { rewrite reducer_eq. cbn [default]. cbv zeta. rewrite Hd, Hl. reflexivity. }
  assert (Hnext : outputHandler midiOptions (storeNext stateKey) a w = (Ok a, w)).
  { unfold outputHandler, storeNext, bind, modify, ret. cbn. rewrite Hs.
    rewrite Hroot, Hred, (insert_id _ _ _ Hroot), (set_root_id _ _ eq_refl). reflexivity. }
  unfold storeDispatch. rewrite (inputHandler_after_next _ _ _ _ _ _ Hnext), Hroot.
  cbn [default]. unfold diff, member, bind, ret. unfold strict_neq.
  rewrite !strict_eq_refl. reflexivity.
Qed.

Lemma other_actions_pass_through_witness :
  let a := receiveMidiMessage note_on in
  root sample_pending !! "midi" = Some initialState /\
  storeDispatch VUndefined "midi" a sample_pending = (Ok a, sample_pending).
Proof.
  cbv zeta. split; [reflexivity|].
  apply (other_actions_pass_through VUndefined "midi" (receiveMidiMessage note_on)
           sample_pending initialState eq_refl);
    discriminate.
Defined.

(** ** Devices that come back *)



(** ** From [setup] to the first device list *)

(** X11: the bootstrap.  In a store that mounts the reducer at
    [stateKey], once [inputMiddleware] was applied, the host has granted the
    request with the access object [m], and the two reactions that follow
    have run, the device list of [m], sorted, is in the state under
    [devices], [listeningDevices] is untouched, [onstatechange] holds the
    snapshot function, no reaction is left and nothing was sent. *)
Theorem bootstrap_seeds_device_list (midiOptions : value) (stateKey : string)
    (st0 : coreState) (m : MIDIAccess) :
  let w0 := set_root {[ stateKey := st0 ]} fresh_world in
  let w := run midiOptions stateKey [ApplyInputMiddleware; Grant 0 m; RunJob; RunJob] w0 in
  jobs w = [] /\
  sent w = [] /\
  (exists m', midiAccess w = Granted m' /\ same_ports m m' /\
              onstatechange m' = Some CallSendDeviceList) /\
  (exists st, root w !! stateKey = Some st /\
              shape_of (devices st) =
                shape_of (VArr 0 (Lodash.sortBy (descriptors 0 m) "id")) /\
              listeningDevices st = listeningDevices st0).
Proof.
  intros w0 w.
  set (m1 := {| inputs := inputs m; outputs := outputs m;
                onstatechange := Some CallSendDeviceList |}).
  set (w3 := {| midiAccess := Granted m1;
                requests := [{| options := midiOptions; status := Fulfilled; waiters := [] |}];
                jobs := [];
                root := {[ stateKey := st0 ]};
                sent := [];
                next_addr := first_free_addr |}).
  assert (Hw : w = snd (sendDeviceList stateKey (storeDispatch midiOptions stateKey) w3))
    by reflexivity.
  assert (Hroot : root w3 !! stateKey = Some st0) by apply lookup_singleton_eq.
  rewrite (sendDeviceList_eq _ _ w3 m1 st0 eq_refl Hroot) in Hw. cbv zeta in Hw.
  set (a := next_addr w3 + length (descriptors (next_addr w3) m1)) in *.
  set (devs := VArr a (Lodash.sortBy (descriptors (next_addr w3) m1) "id")) in *.
  assert (Hshape : shape_of devs = shape_of (VArr 0 (Lodash.sortBy (descriptors 0 m) "id"))).
  { apply snapshot_shape. reflexivity. }
  destruct (DeepEqual.deepEqual devs (devices st0)) eqn:Heq; cbn [negb] in Hw.
  - rewrite Hw. cbn. repeat apply conj; try reflexivity.
    + exists m1. repeat split.
    + exists st0. repeat split; [exact Hroot|].
      apply deepEqual_shape in Heq. rewrite <- Heq. exact Hshape.
  - assert (Hsnd : w = snd (storeDispatch midiOptions stateKey (receiveDeviceList devs)
                              (set_next_addr (S a) w3))).
    { rewrite Hw. unfold bind. destruct (storeDispatch _ _ _ _) as [[x|e] w']; reflexivity. }
    pose proof (storeDispatch_device_list midiOptions stateKey devs
                  (set_next_addr (S a) w3) m1 eq_refl)
      as (Hr & Hj & Hs & m' & Hc' & Hsame & Hsc).
    rewrite <- Hsnd in Hr, Hj, Hs, Hc'.
    repeat apply conj; [exact Hj | exact Hs | |].
    + exists m'. repeat split; assumption.
    + rewrite Hr. cbn [root set_next_addr]. rewrite Hroot, lookup_insert_eq.
      eexists. split; [reflexivity|]. rewrite reducer_eq. cbn. split; [exact Hshape | reflexivity].
Qed.

(** ** The calls of [onChange] *)

Lemma last_cons_default (x d : value) (l : list value) :
  List.last (x :: l) d = List.last l x.
Proof.
  revert x d. induction l as [|y l IH]; intros x d; [reflexivity|].
  change (List.last (x :: y :: l) d) with (List.last (y :: l) d).
  rewrite (IH y d). symmetry. apply (IH y x).
Qed.

Lemma changes_of_chain (l : list value) : forall last,
  Forall (fun c => strict_neq (fst c) (snd c) = true) (changes_of last l) /\
  map snd (changes_of last l) =
    firstn (length (changes_of last l)) (last :: map fst (changes_of last l)) /\
  held l last = List.last (map fst (changes_of last l)) last.
Proof.
  induction l as [|s l IH]; intros last; cbn [changes_of].
  - repeat split. constructor.
  - unfold held in *. cbn [fold_left].
    destruct (strict_neq s last) eqn:Hs.
    + destruct (IH s) as (H1 & H2 & H3). repeat split.
      * constructor; [exact Hs | exact H1].
      * cbn [map fst snd length firstn]. rewrite H2 at 1. reflexivity.
      * cbn [map fst]. rewrite last_cons_default. exact H3.
    + apply IH.
Qed.

(** X12: the calls of [onChange] made by an observer chain: never is
    [next] identical to [prev], the [prev] of the first call is [undefined],
    the [prev] of every later call is the [next] of the call before it, and
    the selection the observer holds is the [next] of its last call. *)
Theorem observeStore_calls_chain
    (E St U : Type) (getState : E -> St)
    (subscribe : (E * observer -> E * observer) -> E -> U * E)
    (select : St -> value) (onChange : value -> value -> E -> E)
    (e : E) (steps : list (E -> E)) :
  let o := snd (notifications E St getState select onChange steps
                  (snd (observeStore E St U getState subscribe select onChange e))) in
  Forall (fun c => strict_neq (fst c) (snd c) = true) (changes o) /\
  map snd (changes o) =
    firstn (length (changes o)) (VUndefined :: map fst (changes o)) /\
  currentState o = List.last (map fst (changes o)) VUndefined.
Proof.
  intros o.
  assert (Ho : consistent o).
  { subst o. apply notifications_consistent.
    unfold observeStore. destruct (subscribe _ e) as [u e']. cbn [snd].
    apply handleChange_consistent. split; reflexivity. }
  destruct Ho as [Hcur Hch]. rewrite Hch, Hcur.
  apply changes_of_chain.
Qed.

(** ** Messages sent before the access object is there *)

Lemma set_requests_id (w : world) (rs : list request) :
  requests w = rs -> set_requests rs w = w.
Proof. destruct w; cbn. intros ->. reflexivity. Qed.

Lemma dispatch_send_in_flight (midiOptions : value) (stateKey : string) (a : action)
    (w : world) (r : request) (st : coreState) :
  midiAccess w = InFlight 0 ->
  requests w = [r] ->
  status r = Pending ->
  root w !! stateKey = Some st ->
  is_send a ->
  storeDispatch midiOptions stateKey a w =
    (Ok a, set_requests [add_waiter (send_of a) r] w).
Proof.
  intros Hc Hrs Hs Hroot [Hkind (o & fs & Hpay)].
  assert (Hred : reducer (Some st) a = st).
  { rewrite reducer_eq, Hkind. reflexivity. }
  assert (Hnext : storeNext stateKey a w = (Ok a, w)).
  { unfold storeNext, bind, modify, ret.
    rewrite Hroot, Hred, (insert_id _ _ _ Hroot), (set_root_id _ _ eq_refl). reflexivity. }
  assert (Hout : outputHandler midiOptions (storeNext stateKey) a w =
                 (Ok a, set_requests [add_waiter (send_of a) r] w)).
  { rewrite (outputHandler_after_next midiOptions (storeNext stateKey) a a w w
               (Lodash.property "timestamp" (payload a))
               (Lodash.property "data" (payload a))
               (Lodash.property "device" (payload a)) Hnext Hkind);
      try (rewrite Hpay; reflexivity).
    rewrite Hc. unfold bind at 1. rewrite (once_in_flight _ _ _ Hc).
    erewrite then_pending; [|rewrite Hrs; reflexivity|exact Hs].
    rewrite Hrs. reflexivity. }
  unfold storeDispatch. rewrite (inputHandler_after_next _ _ _ _ _ _ Hout).
  cbn [root set_requests]. rewrite Hroot. cbn [default].
  unfold diff, member, bind, ret. unfold strict_neq. rewrite !strict_eq_refl. reflexivity.
Qed.

Lemma dispatch_sends_in_flight (midiOptions : value) (stateKey : string)
    (acts : list action) (st : coreState) : forall (w : world) (r : request),
  midiAccess w = InFlight 0 ->
  requests w = [r] ->
  status r = Pending ->
  root w !! stateKey = Some st ->
  Forall is_send acts ->
  run midiOptions stateKey (map Dispatch acts) w =
    set_requests [{| options := options r; status := Pending;
                     waiters := waiters r ++ map send_of acts |}] w.
Proof.
  induction acts as [|a acts IH]; intros w r Hc Hrs Hs Hroot Hall; cbn [map run fold_left].
  - rewrite app_nil_r. symmetry. apply set_requests_id. rewrite Hrs.
    destruct r; cbn in *. rewrite Hs. reflexivity.
  - inversion Hall as [|? ? Ha Hacts]; subst.
    cbn [step]. rewrite (dispatch_send_in_flight _ _ _ _ _ _ Hc Hrs Hs Hroot Ha). cbn [snd].
    fold (run midiOptions stateKey (map Dispatch acts)
            (set_requests [add_waiter (send_of a) r] w)).
    rewrite (IH _ (add_waiter (send_of a) r)); try assumption; try reflexivity.
    cbn. rewrite <- app_assoc. reflexivity.
Qed.

Lemma run_sends (midiOptions : value) (stateKey : string) (acts : list action)
    (rest : list continuation) : forall (w : world) (m : MIDIAccess),
  midiAccess w = Granted m ->
  jobs w = map send_of acts ++ rest ->
  run midiOptions stateKey (repeat RunJob (length acts)) w =
    set_jobs rest (set_sent (sent w ++ flat_map (call_of m) acts) w).
Proof.
  induction acts as [|a acts IH]; intros w m Hc Hj; cbn [length repeat run fold_left].
  - cbn. rewrite app_nil_r. destruct w; cbn in *. rewrite Hj. reflexivity.
  - cbn [step]. unfold run_job. rewrite Hj. cbn [map app].
    unfold send_of at 1. cbn [run_continuation].
    assert (Hsend :
      snd (send (Lodash.property "timestamp" (payload a)) (Lodash.property "data" (payload a))
             (Lodash.property "device" (payload a))
             (set_jobs (map send_of acts ++ rest) w)) =
      set_sent (sent w ++ call_of m a) (set_jobs (map send_of acts ++ rest) w)).
    { unfold call_of.
      destruct (map_get (outputs m) (Lodash.property "device" (payload a))) as [port|] eqn:Hg.
      - erewrite send_known; [reflexivity | exact Hc | exact Hg].
      - erewrite send_unknown; [|exact Hc|].
        + cbn. rewrite app_nil_r. destruct w; reflexivity.
        + destruct (map_has (outputs m) _) eqn:Hh; [|reflexivity].
          destruct (map_has_get _ _ Hh) as [port Hport]. congruence. }
    rewrite Hsend.
    change (fold_left _ (repeat RunJob (length acts)) ?v)
      with (run midiOptions stateKey (repeat RunJob (length acts)) v).
    rewrite (IH _ m); [|exact Hc|reflexivity].
    cbn. rewrite <- app_assoc. reflexivity.
Qed.

(** X13: messages sent too early are not lost and keep their order.  In
    a store where [inputMiddleware] was applied and the request is still in
    flight, every SEND_MIDI_MESSAGE dispatched is returned at once, the
    dispatch giving back the action itself, without an error, and nothing
    is sent; when the host then grants the request and the queued reactions
    run, each message whose device is an output is sent exactly once, in the
    order of the dispatches, and the others are dropped. *)
Theorem deferred_sends_keep_their_order (midiOptions : value) (stateKey : string)
    (acts : list action) (w : world) (r : request) (st : coreState) (m : MIDIAccess) :
  midiAccess w = InFlight 0 ->
  requests w = [r] ->
  status r = Pending ->
  waiters r = [Bootstrap] ->
  jobs w = [] ->
  root w !! stateKey = Some st ->
  Forall is_send acts ->
  let w1 := run midiOptions stateKey (map Dispatch acts) w in
  let w2 := run midiOptions stateKey
              (Grant 0 m :: RunJob :: repeat RunJob (length acts)) w1 in
  sent w1 = sent w /\
  sent w2 = sent w ++ flat_map (call_of m) acts /\
  jobs w2 = [SendDeviceList] /\
  (forall pre a post,
     acts = pre ++ a :: post ->
     let v := run midiOptions stateKey (map Dispatch pre) w in
     exists v',
       storeDispatch midiOptions stateKey a v = (Ok a, v') /\
       sent v' = sent w /\ jobs v' = jobs w /\ midiAccess v' = InFlight 0).
Proof.
  intros Hc Hrs Hs Hws Hj Hroot Hall w1 w2.
  assert (Hreturned :
    forall pre a post,
      acts = pre ++ a :: post ->
      exists v',
        storeDispatch midiOptions stateKey a
          (run midiOptions stateKey (map Dispatch pre) w) = (Ok a, v') /\
        sent v' = sent w /\ jobs v' = jobs w /\ midiAccess v' = InFlight 0).
  { intros pre a post Hacts. rewrite Hacts in Hall.
    apply Forall_app in Hall. destruct Hall as [Hpre Hrest].
    inversion Hrest as [|? ? Ha _]; subst.
    rewrite (dispatch_sends_in_flight _ _ _ _ _ _ Hc Hrs Hs Hroot Hpre).
    eexists. split.
    - apply (dispatch_send_in_flight midiOptions stateKey a _
               {| options := options r; status := Pending;
                  waiters := waiters r ++ map send_of pre |} st);
        try reflexivity; try assumption.
    - repeat split; assumption. }
  assert (Hw1 : w1 = set_requests [{| options := options r; status := Pending;
                                       waiters := Bootstrap :: map send_of acts |}] w).
  { subst w1. rewrite (dispatch_sends_in_flight _ _ _ _ _ _ Hc Hrs Hs Hroot Hall), Hws.
    reflexivity. }
  split; [rewrite Hw1; reflexivity|].
  set (m1 := {| inputs := inputs m; outputs := outputs m;
                onstatechange := Some CallSendDeviceList |}).
  assert (Hw2 : w2 =
    run midiOptions stateKey (repeat RunJob (length acts))
      (set_jobs (map send_of acts ++ [SendDeviceList])
         (set_midiAccess (Granted m1)
            (set_requests [{| options := options r; status := Fulfilled; waiters := [] |}]
               w)))).
  { subst w2. rewrite Hw1. cbn [run fold_left step]. unfold resolve. cbn. rewrite Hj. cbn.
    reflexivity. }
  rewrite Hw2. rewrite (run_sends _ _ acts [SendDeviceList] _ m1); [|reflexivity|reflexivity].
  repeat apply conj; try reflexivity.
  intros pre a post Hacts v. apply (Hreturned pre a post Hacts).
Qed.

Lemma deferred_sends_keep_their_order_witness :
  let acts := [ sendMidiMessage note_on;
                sendMidiMessage (VObj 102 [("device", VStr "nowhere")]);
                sendMidiMessage (VObj 103 [("device", VStr "out2"); ("timestamp", VNum 9)]) ] in
  let w1 := run VUndefined "midi" (map Dispatch acts) sample_pending in
  let w2 := run VUndefined "midi" [Grant 0 sample_access; RunJob; RunJob; RunJob; RunJob] w1 in
  midiAccess sample_pending = InFlight 0 /\
  Forall is_send acts /\
  sent w1 = [] /\
  map (fun c => port_id (to c)) (sent w2) = ["out1"; "out2"] /\
  fst (storeDispatch VUndefined "midi" (sendMidiMessage note_on) sample_pending) =
    Ok (sendMidiMessage note_on).
Proof.
  cbv zeta.
  assert (Hall : Forall is_send
            [ sendMidiMessage note_on;
              sendMidiMessage (VObj 102 [("device", VStr "nowhere")]);
              sendMidiMessage (VObj 103 [("device", VStr "out2"); ("timestamp", VNum 9)]) ]).
  { repeat constructor; eexists _, _; reflexivity. }
  split; [reflexivity|]. split; [exact Hall|].
  destruct (deferred_sends_keep_their_order VUndefined "midi" _ sample_pending
              {| options := VUndefined; status := Pending; waiters := [Bootstrap] |}
              initialState sample_access eq_refl eq_refl eq_refl eq_refl eq_refl eq_refl Hall)
    as (H1 & H2 & _ & H4).
  split; [exact H1|]. split.
  - cbn [length repeat] in H2. rewrite H2. reflexivity.
  - destruct (H4 [] (sendMidiMessage note_on)
                [ sendMidiMessage (VObj 102 [("device", VStr "nowhere")]);
                  sendMidiMessage (VObj 103 [("device", VStr "out2"); ("timestamp", VNum 9)]) ]
                eq_refl) as (v' & Hrun & _).
    cbn [map run fold_left] in Hrun. rewrite Hrun. reflexivity.
Defined.
